(** * TD-learning agent of the 2048-like framework: a shallow embedding

    Sources embedded here:
    - [src/unnamed/part_000]: the current agent header ([rndenv], [TD_player]
      with 32 tuples over base 31, the two-ply [expect_value] and the n-step
      [close_episode]);
    - [src/agent.h]: the earlier revision of the same header (24 tuples over
      base 25, one-step updates).

    [board.h], [action.h] and [weight.h] are not among the sources.  The
    agent code only uses [board::operator()], [board::tile], [board::slide],
    the three [action] constructors and [weight::operator[]]; these are
    modelled below, each with a note saying from where.

    Numbers.  C++ [int] is modelled as [Z] (signed overflow is undefined in
    C++ and is not modelled: statements that depend on [int] sums carry the
    bound that keeps them inside 32 bits).  C++ [float] arithmetic is kept
    behind the interface [FloatOps], with two instances: [binary32], the
    IEEE-754 single precision operations of [SpecFloat] (round to nearest
    even), which is what the program computes, and [exact], the same
    operations computed without rounding over [Q], an idealisation used for
    worked values and for the idealised readings.  The agent is written
    once, over the interface; its properties are stated for every instance
    or for [binary32]. *)

From Stdlib Require Import Ascii String.
From Stdlib Require Import ZArith List Bool Lia QArith Qabs Lqa Permutation Sorted.
From Stdlib Require Import Floats.SpecFloat.
Import ListNotations.

Set Implicit Arguments.
Open Scope Z_scope.

(** ** Float arithmetic as used by the agent *)

Class FloatOps (F : Type) : Type := {
  f_of_int : Z -> F;        (* implicit conversion int -> float *)
  f_to_int : F -> Z;        (* implicit conversion float -> int: truncation *)
  f_add : F -> F -> F;
  f_sub : F -> F -> F;
  f_mul : F -> F -> F;
  f_div : F -> F -> F;
  f_gt : F -> F -> bool;    (* a > b *)
  f_eq : F -> F -> bool;    (* a == b *)
  f_zero : F;               (* the literal 0.0 stored in a float *)
  f_0_9 : F;                (* float(0.9) *)
  f_0_1 : F;                (* float(0.1) *)
  f_lowest : F              (* -std::numeric_limits<float>::max() *)
}.

(** The largest finite single-precision number, (2^24 - 1) * 2^104. *)
Definition FLT_MAX : Z := (2 ^ 24 - 1) * 2 ^ 104.

(** *** Exact arithmetic over the rationals

    The constants are the single-precision values of the literals:
    float(0.9) = 15099494 / 2^24 and float(0.1) = 13421773 / 2^27. *)

Definition Q_trunc (q : Q) : Z := Z.quot (Qnum q) (Zpos (Qden q)).

Definition Q_gt (a b : Q) : bool := negb (Qle_bool a b).

#[export] Instance exact : FloatOps Q := {
  f_of_int := inject_Z;
  f_to_int := Q_trunc;
  f_add := Qplus;
  f_sub := Qminus;
  f_mul := Qmult;
  f_div := Qdiv;
  f_gt := Q_gt;
  f_eq := Qeq_bool;
  f_zero := 0%Q;
  f_0_9 := (15099494 # 16777216)%Q;
  f_0_1 := (13421773 # 134217728)%Q;
  f_lowest := inject_Z (- FLT_MAX)
}.

(** *** IEEE-754 binary32 *)

Definition b32_of_int (z : Z) : spec_float := binary_normalize 24 128 z 0 false.

(** Truncation toward zero.  The C++ conversion is undefined for
    infinities, NaN and values of magnitude 2^31 or more: the model returns
    0 for the first two and the truncated integer for the last. *)
Definition b32_to_int (x : spec_float) : Z :=
  match x with
  | S754_finite s m e =>
      let a := match e with
               | Zneg _ => Z.shiftr (Zpos m) (- e)
               | _ => Z.shiftl (Zpos m) e
               end in
      if s then - a else a
  | _ => 0
  end.

#[export] Instance binary32 : FloatOps spec_float := {
  f_of_int := b32_of_int;
  f_to_int := b32_to_int;
  f_add := SFadd 24 128;
  f_sub := SFsub 24 128;
  f_mul := SFmul 24 128;
  f_div := SFdiv 24 128;
  f_gt := fun a b => SFltb b a;
  f_eq := SFeqb;
  f_zero := S754_zero false;
  f_0_9 := S754_finite false 15099494 (-24);
  f_0_1 := S754_finite false 13421773 (-27);
  f_lowest := S754_finite true 16777215 104
}.

(** ** Board *)

(** Modelled from the spec: the board type of [board.h], which is not among
    the sources.  A board is a 4x4 grid of cell exponents, 0 meaning empty;
    the agent reads it with [after(i)] and writes it with
    [tile[i / 4][i % 4] = v], so the sixteen cells are kept in row-major
    order. *)
Definition board := list Z.

(** [b(i)] *)
Definition cell_at (b : board) (i : nat) : Z := nth i b 0.

(** [b.tile[i / 4][i % 4] = v] *)
Fixpoint set_tile (b : board) (i : nat) (v : Z) : board :=
  match b, i with
  | [], _ => []
  | _ :: t, O => v :: t
  | x :: t, S i' => x :: set_tile t i' v
  end.

(** ** Actions *)

(** Modelled from the spec: the action type of [action.h], which is not among
    the sources.  An action is a tagged value; the three constructors are the
    three expressions the agents build: [action::slide(op)],
    [action::place(pos, tile)] and the default [action()]. *)
Inductive action : Type :=
| action_slide (op : Z)
| action_place (pos : nat) (tile : Z)
| action_null.

(** ** Feature extraction (TD_player, base 31) *)

Definition extract_feature (after : board) (a b c d e : nat) : Z :=
  cell_at after a * 31 * 31 * 31 * 31 + cell_at after b * 31 * 31 * 31
  + cell_at after c * 31 * 31 + cell_at after d * 31 + cell_at after e.

Definition extract_feature2 (after : board) (a b c d : nat) : Z :=
  cell_at after a * 31 * 31 * 31 + cell_at after b * 31 * 31
  + cell_at after c * 31 + cell_at after d.

(** The feature index used with [net[k]], for k = 0 .. 31, in the order of
    the 32 lines of [estimate_value] and [adjust_value]. *)
Definition features (after : board) : list Z :=
  [ extract_feature after 0 1 2 3 4;
    extract_feature after 5 6 7 10 11;
    extract_feature after 8 9 12 13 14;
    extract_feature after 0 1 2 3 7;
    extract_feature after 4 5 6 8 9;
    extract_feature after 10 11 13 14 15;
    extract_feature after 1 2 3 6 7;
    extract_feature after 4 5 8 9 10;
    extract_feature after 11 12 13 14 15;
    extract_feature after 0 1 2 4 5;
    extract_feature after 6 7 9 10 11;
    extract_feature after 8 12 13 14 15;
    extract_feature after 0 4 8 12 13;
    extract_feature after 1 2 5 6 9;
    extract_feature after 7 10 11 14 15;
    extract_feature after 0 1 4 8 12;
    extract_feature after 5 9 10 13 14;
    extract_feature after 2 3 6 7 11;
    extract_feature after 2 3 7 11 15;
    extract_feature after 6 9 10 13 14;
    extract_feature after 0 1 4 5 8;
    extract_feature after 3 7 11 14 15;
    extract_feature after 1 2 5 6 10;
    extract_feature after 4 8 9 12 13;
    extract_feature2 after 0 1 2 3;
    extract_feature2 after 4 5 6 7;
    extract_feature2 after 8 9 10 11;
    extract_feature2 after 12 13 14 15;
    extract_feature2 after 0 4 8 12;
    extract_feature2 after 1 5 9 13;
    extract_feature2 after 2 6 10 14;
    extract_feature2 after 3 7 11 15 ]%nat.

(** [(k, index)] pairs: table number and feature index, k = 0 .. 31. *)
Definition indexed_features (after : board) : list (nat * Z) :=
  combine (seq 0 32) (features after).

(** Base-31 decomposition of an index into [k] digits, most significant
    first (the inverse the spec asks of the feature index). *)
Fixpoint digits31_rev (k : nat) (idx : Z) : list Z :=
  match k with
  | O => []
  | S k' => (idx mod 31) :: digits31_rev k' (idx / 31)
  end.

Definition digits31 (k : nat) (idx : Z) : list Z := rev (digits31_rev k idx).

(** ** Weight tables *)

(** Modelled from the spec: the weight table of [weight.h], which is not
    among the sources.  [net[k][i]] is unchecked indexing of table [k] at
    feature index [i]; a table is a total map from index to weight.  Vector
    bounds are not modelled (an access past the end is undefined in C++);
    [features_in_range] below shows that boards with cells in [0, 31) stay
    inside the sizes allocated by [init_weights]. *)
Definition weight (F : Type) : Type := Z -> F.

(** [std::vector<weight> net], a total map from table number to table. *)
Definition network (F : Type) : Type := nat -> weight F.

(** [net[k][idx] = v] *)
Definition net_set {F : Type} (net : network F) (k : nat) (idx : Z) (v : F)
  : network F :=
  fun k' idx' => if (Nat.eqb k' k && Z.eqb idx' idx)%bool then v else net k' idx'.

(** [init_weights]: 24 tables of 31^5 and 8 tables of 31^4 zero weights. *)
Definition table_size (k : nat) : Z :=
  if (k <? 24)%nat then 31 * 31 * 31 * 31 * 31
  else if (k <? 32)%nat then 31 * 31 * 31 * 31 else 0.

Definition init_weights {F : Type} {FO : FloatOps F} : network F :=
  fun _ _ => f_zero.

(** ** rndenv: the random environment

    The random engine is not modelled; its two outcomes are arguments:
    [shuffled], the contents of [space] after [std::shuffle], and [popup],
    the draw of [uniform_int_distribution<int>(0, 9)]. *)

Fixpoint rndenv_scan (after : board) (space : list nat) (popup : Z) : action :=
  match space with
  | [] => action_null
  | pos :: rest =>
      if negb (cell_at after pos =? 0) then rndenv_scan after rest popup
      else action_place pos (if negb (popup =? 0) then 1 else 2)
  end.

Record rndenv : Type := { space : list nat }.

Definition rndenv_init : rndenv := {| space := seq 0 16 |}.

Definition rndenv_take_action (shuffled : list nat) (popup : Z)
    (env : rndenv) (after : board) : action * rndenv :=
  (rndenv_scan after shuffled popup, {| space := shuffled |}).

(** ** TD_player *)

Record step : Type := { reward : Z; after : board }.

Definition no_step : step := {| reward := 0; after := [] |}.

Definition opcode : list Z := [0; 1; 2; 3].

(** The members of [TD_player] (with those inherited from [weight_agent]). *)
Record TD_player (F : Type) : Type := {
  net : network F;
  alpha : F;
  n_step : Z;
  history : list step
}.

(** The locals of [take_action]. *)
Record search (F : Type) : Type := {
  best_op : Z;
  best_reward : Z;
  best_value : F;
  best_after : board
}.

Section TD_player.

Context {F : Type} {FO : FloatOps F}.

(** [board::slide]: [slide b op] is the reward returned by [b.slide(op)]
    and the board it leaves; a negative reward (-1) marks an illegal
    direction.  [board.h] is not among the sources, so the agent is
    embedded for an arbitrary slide function. *)
Variable slide : board -> Z -> Z * board.

Definition estimate_value (net : network F) (after : board) : F :=
  fold_left (fun value ki => f_add value (net (fst ki) (snd ki)))
            (indexed_features after) f_zero.

(** The loop over [opcode] that [expect_value] runs once for the 2-tile
    and once for the 4-tile: the pair is [(best_reward, best_value)]. *)
Definition best_slide_step (net : network F) (state : board)
    (best : Z * F) (op : Z) : Z * F :=
  let reward1 := fst (slide state op) in
  let after1 := snd (slide state op) in
  if reward1 <? 0 then best
  else
    let value1 := estimate_value net after1 in
    if f_gt (f_add (f_of_int reward1) value1)
            (f_add (f_of_int (fst best)) (snd best))
    then (reward1, value1)
    else best.

Definition best_slide (net : network F) (state : board) : Z * F :=
  fold_left (best_slide_step net state) opcode (-1, f_lowest).

Definition empty_tiles (after : board) : list nat :=
  filter (fun i => cell_at after i =? 0) (seq 0 16).

Definition expect_step (net : network F) (after : board) (num_empty : Z)
    (value : F) (i : nat) : F :=
  let state1 := set_tile after i 1 in
  let best_value1 := snd (best_slide net state1) in
  let state2 := set_tile after i 2 in
  let best_value2 := snd (best_slide net state2) in
  let value := f_add value (f_div (f_mul f_0_9 best_value1) (f_of_int num_empty)) in
  f_add value (f_div (f_mul f_0_1 best_value2) (f_of_int num_empty)).

Definition expect_value (net : network F) (after : board) : F :=
  let empty_tile := empty_tiles after in
  let num_empty := Z.of_nat (length empty_tile) in
  fold_left (expect_step net after num_empty) empty_tile f_zero.

Definition search_init : search F :=
  {| best_op := -1; best_reward := -1; best_value := f_lowest;
     best_after := repeat 0 16 |}.

Definition search_key (s : search F) : F :=
  f_add (f_of_int (best_reward s)) (best_value s).

Definition take_action_step (net : network F) (before : board)
    (s : search F) (op : Z) : search F :=
  let reward := fst (slide before op) in
  let after := snd (slide before op) in
  if reward <? 0 then s
  else
    let value := expect_value net after in
    if f_gt (f_add (f_of_int reward) value) (search_key s)
    then {| best_op := op; best_reward := reward; best_value := value;
            best_after := after |}
    else s.

Definition take_action_search (net : network F) (before : board) : search F :=
  fold_left (take_action_step net before) opcode search_init.

Definition push_back (st : TD_player F) (s : step) : TD_player F :=
  {| net := net st; alpha := alpha st; n_step := n_step st;
     history := history st ++ [s] |}.

Definition take_action (st : TD_player F) (before : board)
  : action * TD_player F :=
  let s := take_action_search (net st) before in
  let st' := if negb (best_op s =? -1)
             then push_back st {| reward := best_reward s; after := best_after s |}
             else st in
  (action_slide (best_op s), st').

(** [adjust_value(after, target)]: note the parameter is [int target]. *)
Definition adjust_value (net : network F) (alpha : F) (after : board)
    (target : Z) : network F :=
  let cur := estimate_value net after in
  let err := f_sub (f_of_int target) cur in
  let adjust := f_mul alpha err in
  fold_left (fun net ki =>
               net_set net (fst ki) (snd ki)
                       (f_add (net (fst ki) (snd ki)) adjust))
            (indexed_features after) net.

Definition open_episode (st : TD_player F) : TD_player F :=
  {| net := net st; alpha := alpha st; n_step := n_step st; history := [] |}.

(** [for(int j = 1 ; j <= n_step ; j++)] with its [break]: [iters] counts
    the iterations left, [j] is the loop variable. *)
Fixpoint reward_loop (history : list step) (i j iters : nat) (total_reward : Z)
  : Z :=
  match iters with
  | O => total_reward
  | S iters' =>
      if (length history <=? i + j)%nat then total_reward
      else reward_loop history i (S j) iters'
                       (total_reward + reward (nth (i + j) history no_step))
  end.

(** The float expression [total_reward + estimate_value(...)] is passed to
    the [int target] parameter, i.e. converted with [f_to_int].  (For a
    negative [n_step] the C++ index [i + n_step] can be negative, which is
    undefined; the claims are about [n_step >= 1].  The sums [i + n_step]
    and [total_reward] are [int] in C++ and are computed in [Z] here, which
    agrees with the code while they stay below 2^31.) *)
Definition close_step (alpha : F) (n_step : Z) (history : list step)
    (net : network F) (i : nat) : network F :=
  let total_reward := reward_loop history i 1 (Z.to_nat n_step) 0 in
  if Z.of_nat i + n_step >=? Z.of_nat (length history)
  then adjust_value net alpha (after (nth i history no_step)) total_reward
  else
    adjust_value net alpha (after (nth i history no_step))
      (f_to_int
         (f_add (f_of_int total_reward)
            (estimate_value net
               (after (nth (Z.to_nat (Z.of_nat i + n_step)) history no_step))))).

Definition with_net (st : TD_player F) (net' : network F) : TD_player F :=
  {| net := net'; alpha := alpha st; n_step := n_step st;
     history := history st |}.

Definition close_episode (st : TD_player F) : TD_player F :=
  if (length (history st) =? 0)%nat then st
  else if f_eq (alpha st) (f_of_int 0) then st
  else
    let net1 := adjust_value (net st) (alpha st)
                  (after (last (history st) no_step)) 0 in
    with_net st
      (fold_left (close_step (alpha st) (n_step st) (history st))
                 (rev (seq 0 (length (history st) - 1))) net1).

End TD_player.

(** ** The earlier revision, [src/agent.h]

    The same agent with 24 five-cell tuples over base 25, a one-ply
    [take_action] that compares [reward + estimate_value(after)] starting from
    the value -1000000.0, and a one-step [close_episode]. *)

Module Agent_h.

Definition extract_feature (after : board) (a b c d e : nat) : Z :=
  cell_at after a * 25 * 25 * 25 * 25 + cell_at after b * 25 * 25 * 25
  + cell_at after c * 25 * 25 + cell_at after d * 25 + cell_at after e.

Definition features (after : board) : list Z :=
  [ extract_feature after 0 1 2 3 4;
    extract_feature after 5 6 7 10 11;
    extract_feature after 8 9 12 13 14;
    extract_feature after 0 1 2 3 7;
    extract_feature after 4 5 6 8 9;
    extract_feature after 10 11 13 14 15;
    extract_feature after 1 2 3 6 7;
    extract_feature after 4 5 8 9 10;
    extract_feature after 11 12 13 14 15;
    extract_feature after 0 1 2 4 5;
    extract_feature after 6 7 9 10 11;
    extract_feature after 8 12 13 14 15;
    extract_feature after 0 4 8 12 13;
    extract_feature after 1 2 5 6 9;
    extract_feature after 7 10 11 14 15;
    extract_feature after 0 1 4 8 12;
    extract_feature after 5 9 10 13 14;
    extract_feature after 2 3 6 7 11;
    extract_feature after 2 3 7 11 15;
    extract_feature after 6 9 10 13 14;
    extract_feature after 0 1 4 5 8;
    extract_feature after 3 7 11 14 15;
    extract_feature after 1 2 5 6 10;
    extract_feature after 4 8 9 12 13 ]%nat.

Definition indexed_features (after : board) : list (nat * Z) :=
  combine (seq 0 24) (features after).

Section TD_player.

Context {F : Type} {FO : FloatOps F}.
Variable slide : board -> Z -> Z * board.

Definition estimate_value (net : network F) (after : board) : F :=
  fold_left (fun value ki => f_add value (net (fst ki) (snd ki)))
            (indexed_features after) f_zero.

Definition search_init : search F :=
  {| best_op := -1; best_reward := -1; best_value := f_of_int (-1000000);
     best_after := repeat 0 16 |}.

Definition take_action_step (net : network F) (before : board)
    (s : search F) (op : Z) : search F :=
  let reward := fst (slide before op) in
  let after := snd (slide before op) in
  if reward <? 0 then s
  else
    let value := estimate_value net after in
    if f_gt (f_add (f_of_int reward) value)
            (f_add (f_of_int (best_reward s)) (best_value s))
    then {| best_op := op; best_reward := reward; best_value := value;
            best_after := after |}
    else s.

Definition take_action (st : TD_player F) (before : board)
  : action * TD_player F :=
  let s := fold_left (take_action_step (net st) before) opcode search_init in
  let st' := if negb (best_op s =? -1)
             then {| net := net st; alpha := alpha st; n_step := n_step st;
                     history := history st
                                ++ [ {| reward := best_reward s;
                                        after := best_after s |} ] |}
             else st in
  (action_slide (best_op s), st').

Definition adjust_value (net : network F) (alpha : F) (after : board)
    (target : Z) : network F :=
  let cur := estimate_value net after in
  let err := f_sub (f_of_int target) cur in
  let adjust := f_mul alpha err in
  fold_left (fun net ki =>
               net_set net (fst ki) (snd ki)
                       (f_add (net (fst ki) (snd ki)) adjust))
            (indexed_features after) net.

(** [adjust_value(history[i].after,
                  history[i+1].reward + estimate_value(history[i+1].after))],
    again through the [int target] parameter. *)
Definition close_step (alpha : F) (history : list step) (net : network F)
    (i : nat) : network F :=
  adjust_value net alpha (after (nth i history no_step))
    (f_to_int
       (f_add (f_of_int (reward (nth (i + 1) history no_step)))
              (estimate_value net (after (nth (i + 1) history no_step))))).

Definition close_episode (st : TD_player F) : TD_player F :=
  if (length (history st) =? 0)%nat then st
  else if f_eq (alpha st) (f_of_int 0) then st
  else
    {| net := fold_left (close_step (alpha st) (history st))
                        (rev (seq 0 (length (history st) - 1)))
                        (adjust_value (net st) (alpha st)
                                      (after (last (history st) no_step)) 0);
       alpha := alpha st; n_step := n_step st; history := history st |}.

End TD_player.

End Agent_h.

(** ** The move engine

    [board::slide] is in [board.h], which is not among the sources.  The
    agent above is embedded over an arbitrary slide function; the concrete
    one below, written from section 4.1 of the spec, is used to evaluate the
    agent on boards. *)

(** Reduction to the range of a 32-bit [int]. *)
Definition to_int (z : Z) : Z := (z + 2 ^ 31) mod 2 ^ 32 - 2 ^ 31.

Fixpoint merge_line (l : list Z) : list Z * Z :=
  match l with
  | [] => ([], 0)
  | a :: tl =>
      match tl with
      | [] => ([a], 0)
      | b :: rest =>
          if a =? b
          then let r := merge_line rest in ((a + 1) :: fst r, 2 ^ (a + 1) + snd r)
          else let r := merge_line tl in (a :: fst r, snd r)
      end
  end.

(** One line, moved toward its head. *)
Definition slide_line (l : list Z) : list Z * Z :=
  let m := merge_line (filter (fun x => negb (x =? 0)) l) in
  (fst m ++ repeat 0 (length l - length (fst m)), snd m).

Definition board_row (b : board) (r : nat) : list Z :=
  map (fun c => cell_at b (4 * r + c)) (seq 0 4).

Definition transpose (b : board) : board :=
  map (fun i => cell_at b (4 * (i mod 4) + i / 4)%nat) (seq 0 16).

Definition slide_left (b : board) : board * Z :=
  let rows := map (fun r => slide_line (board_row b r)) (seq 0 4) in
  (concat (map fst rows), fold_left Z.add (map snd rows) 0).

Definition slide_right (b : board) : board * Z :=
  let rows := map (fun r => slide_line (rev (board_row b r))) (seq 0 4) in
  (concat (map (fun x => rev (fst x)) rows), fold_left Z.add (map snd rows) 0).

Definition slide_up (b : board) : board * Z :=
  let r := slide_left (transpose b) in (transpose (fst r), snd r).

Definition slide_down (b : board) : board * Z :=
  let r := slide_right (transpose b) in (transpose (fst r), snd r).

Definition board_eqb (a b : board) : bool :=
  forallb (fun i => cell_at a i =? cell_at b i) (seq 0 16).

(** Modelled from the spec: [board::slide] of [board.h].  Every line is
    compressed toward the edge of the move, adjacent equal exponents merge
    into one cell of exponent + 1, each merge adds 2^(new exponent) to the
    reward, and the result is -1 when no cell changes.  The numbering of the
    directions (0 up, 1 right, 2 down, 3 left) is the framework's usual one;
    the spec does not fix it.  The reward is a C++ [int]. *)
Definition slide_2048 (b : board) (op : Z) : Z * board :=
  let moved :=
    match op with
    | 0 => Some (slide_up b)
    | 1 => Some (slide_right b)
    | 2 => Some (slide_down b)
    | 3 => Some (slide_left b)
    | _ => None
    end in
  match moved with
  | Some (b', r) => if board_eqb b' b then (-1, b) else (to_int r, b')
  | None => (-1, b)
  end.

(** ** The claims' readings, written from the spec's words *)

Section Spec_readings.

Context {F : Type} {FO : FloatOps F}.
Variable slide : board -> Z -> Z * board.

(** "The maximum over all legal slide directions of the immediate slide
    reward plus the network's estimate of the resulting board; if no
    direction is legal, the worst possible." *)
Definition best_return_step (net : network F) (state : board)
    (best : option F) (op : Z) : option F :=
  if fst (slide state op) <? 0 then best
  else
    let x := f_add (f_of_int (fst (slide state op)))
                   (estimate_value net (snd (slide state op))) in
    match best with
    | None => Some x
    | Some y => if f_gt x y then Some x else Some y
    end.

Definition best_return (net : network F) (state : board) : F :=
  match fold_left (best_return_step net state) opcode None with
  | Some x => x
  | None => f_lowest
  end.

(** "The sum over the empty cells of (0.9 best1 + 0.1 best2) / numEmptyCells". *)
Definition weighted_sum (best : Z -> nat -> F) (after : board) : F :=
  fold_left
    (fun acc i =>
       f_add acc
         (f_div (f_add (f_mul f_0_9 (best 1 i)) (f_mul f_0_1 (best 2 i)))
                (f_of_int (Z.of_nat (length (empty_tiles after))))))
    (empty_tiles after) f_zero.

Definition expect_value_as_claimed (net : network F) (after : board) : F :=
  weighted_sum (fun t i => best_return net (set_tile after i t)) after.

(** "Every earlier step i is adjusted toward the sum of the rewards
    recorded at steps i+1 .. i+n plus, when step i+n exists, the network's
    estimate of step i+n's afterstate": the target is a float, so the
    adjustment takes it as one. *)
Definition adjust_toward (net : network F) (alpha : F) (after : board)
    (target : F) : network F :=
  let adjust := f_mul alpha (f_sub target (estimate_value net after)) in
  fold_left (fun net ki =>
               net_set net (fst ki) (snd ki)
                       (f_add (net (fst ki) (snd ki)) adjust))
            (indexed_features after) net.

Definition n_step_rewards (history : list step) (i : nat) (n : Z) : Z :=
  fold_left Z.add
    (map reward (firstn (Z.to_nat n) (skipn (S i) history))) 0.

Definition n_step_target (net : network F) (history : list step) (i : nat)
    (n : Z) : F :=
  match nth_error history (i + Z.to_nat n) with
  | Some s => f_add (f_of_int (n_step_rewards history i n))
                    (estimate_value net (after s))
  | None => f_of_int (n_step_rewards history i n)
  end.

Definition close_episode_as_claimed (alpha : F) (n : Z) (history : list step)
    (net : network F) : network F :=
  fold_left
    (fun net i => adjust_toward net alpha (after (nth i history no_step))
                                (n_step_target net history i n))
    (rev (seq 0 (length history - 1)))
    (adjust_toward net alpha (after (last history no_step)) (f_of_int 0)).

End Spec_readings.

(** The target [close_episode] hands to [adjust_value] for step [i]: the
    n-step return, converted to [int]. *)
Definition truncated_target {F : Type} {FO : FloatOps F} (net0 : network F)
    (history : list step) (i : nat) (n : Z) : Z :=
  match nth_error history (i + Z.to_nat n) with
  | Some s => f_to_int (f_add (f_of_int (n_step_rewards history i n))
                              (estimate_value net0 (after s)))
  | None => n_step_rewards history i n
  end.

(** ** Concrete data used by the examples *)

(** A board with a single 2-tile in the corner. *)
Definition corner_board : board :=
  [1; 0; 0; 0;  0; 0; 0; 0;  0; 0; 0; 0;  0; 0; 0; 0].

(** A full board without equal neighbours: no direction is legal. *)
Definition stuck_board : board :=
  [1; 2; 1; 2;  2; 1; 2; 1;  1; 2; 1; 2;  2; 1; 2; 1].

Definition player0 {F : Type} {FO : FloatOps F} (a : F) (n : Z)
    (h : list step) : TD_player F :=
  {| net := init_weights; alpha := a; n_step := n; history := h |}.

(** A two-step episode and an agent whose table 0 holds 1/2 everywhere,
    with learning rate 1/64 and horizon 1. *)
Definition episode2 : list step :=
  [ {| reward := 0;
       after := [0; 0; 0; 1;  0; 0; 0; 0;  0; 0; 0; 0;  0; 0; 0; 0] |};
    {| reward := 4;
       after := [0; 0; 0; 2;  0; 0; 0; 0;  0; 0; 0; 0;  0; 0; 0; 0] |} ].

Definition half_net {F : Type} {FO : FloatOps F} : network F :=
  fun k _ => if Nat.eqb k 0 then f_div (f_of_int 1) (f_of_int 2) else f_zero.

Definition player2 {F : Type} {FO : FloatOps F} : TD_player F :=
  {| net := half_net; alpha := f_div (f_of_int 1) (f_of_int 64);
     n_step := 1; history := episode2 |}.

(** ** Predicates used in the statements *)

Definition cells_in_range (b : board) (cells : list nat) : Prop :=
  Forall (fun i => 0 <= cell_at b i < 31) cells.

(** The history invariant: every recorded reward is that of a legal slide. *)
Definition rewards_nonneg (h : list step) : Prop :=
  Forall (fun s => 0 <= reward s) h.

(** [op] is a legal direction on [b]. *)
Definition legal (slide : board -> Z -> Z * board) (b : board) (op : Z) : Prop :=
  In op opcode /\ 0 <= fst (slide b op).

(** The agents the driver can reach: a new agent has an empty history, and
    the driver calls [open_episode], [take_action] and [close_episode]. *)
Inductive reachable {F : Type} {FO : FloatOps F}
    (slide : board -> Z -> Z * board) : TD_player F -> Prop :=
| reach_new : forall st, history st = [] -> reachable slide st
| reach_open : forall st, reachable slide st -> reachable slide (open_episode st)
| reach_take : forall st before,
    reachable slide st -> reachable slide (snd (take_action slide st before))
| reach_close : forall st, reachable slide st -> reachable slide (close_episode st).

(** [(k, idx)] is one of the listed (table, index) pairs. *)
Definition selects (k : nat) (idx : Z) (l : list (nat * Z)) : bool :=
  existsb (fun ki => Nat.eqb k (fst ki) && Z.eqb idx (snd ki)) l.

(** The locals of [take_action] once [op] has been selected. *)
Definition search_of {F : Type} {FO : FloatOps F}
    (slide : board -> Z -> Z * board) (net0 : network F) (before : board)
    (op : Z) : search F :=
  {| best_op := op;
     best_reward := fst (slide before op);
     best_value := expect_value slide net0 (snd (slide before op));
     best_after := snd (slide before op) |}.

(** What the loop of [take_action] leaves in its locals: either nothing was
    selected, or the record of one legal direction. *)
Definition selected {F : Type} {FO : FloatOps F}
    (slide : board -> Z -> Z * board) (net0 : network F) (before : board)
    (s : search F) : Prop :=
  s = search_init \/ exists op, legal slide before op /\ s = search_of slide net0 before op.

(** The step the history gets when [op] is chosen on [before]. *)
Definition step_of (slide : board -> Z -> Z * board) (before : board) (op : Z)
  : step :=
  {| reward := fst (slide before op); after := snd (slide before op) |}.

(** *** Exact arithmetic: the quantities the agent compares *)

(** [reward + expect_value(after)] of direction [op], the score that
    [take_action] maximises. *)
Definition move_value (slide : board -> Z -> Z * board) (net0 : network Q)
    (before : board) (op : Z) : Q :=
  inject_Z (fst (slide before op)) + expect_value slide net0 (snd (slide before op)).

(** [reward + estimate_value(after)] of direction [op], the score the inner
    loops of [expect_value] maximise. *)
Definition slide_value (slide : board -> Z -> Z * board) (net0 : network Q)
    (state : board) (op : Z) : Q :=
  inject_Z (fst (slide state op)) + estimate_value net0 (snd (slide state op)).

(** The score of the initial locals, [-1 + -FLT_MAX]. *)
Definition sentinel_value : Q := inject_Z (-1) + inject_Z (- FLT_MAX).

(** [bv] is the best value the inner loop of [expect_value] records for
    [state]: the estimate of the board reached by the first direction whose
    [slide_value] is maximal among the legal ones, when that maximum exceeds
    the initial score; the lowest float otherwise (in particular when no
    direction is legal). *)
Definition best_estimate (slide : board -> Z -> Z * board) (net0 : network Q)
    (state : board) (bv : Q) : Prop :=
  (bv = inject_Z (- FLT_MAX)
   /\ forall op, legal slide state op ->
                 (slide_value slide net0 state op <= sentinel_value)%Q)
  \/ exists op,
       legal slide state op
       /\ bv = estimate_value net0 (snd (slide state op))
       /\ (sentinel_value < slide_value slide net0 state op)%Q
       /\ (forall op', legal slide state op' ->
                       (slide_value slide net0 state op'
                        <= slide_value slide net0 state op)%Q)
       /\ (forall op', legal slide state op' -> op' < op ->
                       (slide_value slide net0 state op'
                        < slide_value slide net0 state op)%Q).

(** A left-to-right scan keeping the first candidate of greatest key: the
    shape shared by the loop of [take_action] and those of [expect_value]. *)
Definition scan_step (S : Type) (key : S -> Q) (cand : Z -> option S)
    (best : S) (op : Z) : S :=
  match cand op with
  | Some c => if Q_gt (key c) (key best) then c else best
  | None => best
  end.

Definition pair_key (p : Z * Q) : Q := inject_Z (fst p) + snd p.

Definition slide_cand (slide : board -> Z -> Z * board) (net0 : network Q)
    (state : board) (op : Z) : option (Z * Q) :=
  if fst (slide state op) <? 0 then None
  else Some (fst (slide state op), estimate_value net0 (snd (slide state op))).

Definition search_cand (slide : board -> Z -> Z * board) (net0 : network Q)
    (before : board) (op : Z) : option (search Q) :=
  if fst (slide before op) <? 0 then None
  else Some (search_of slide net0 before op).

Definition sumQ (l : list Q) : Q := fold_right Qplus 0%Q l.

(** Bounds used for [take_action]: no best value recorded by the inner loops
    is below [- value_bound] when rewards are 32-bit, and then no expected
    value is below [- expect_bound]. *)
Definition value_bound : Q := inject_Z FLT_MAX + inject_Z (2 ^ 31).

Definition expect_bound : Q :=
  ((15099494 # 16777216) + (13421773 # 134217728)) * value_bound.

(** * The rest of the header

    The classes around [TD_player]: the base class [agent] with its
    key/value configuration, the dummy [player], and the constructors. *)

(** ** agent: the key/value configuration *)

(** [std::isspace] in the "C" locale: space and the characters 9 .. 13. *)
Definition isspace (c : ascii) : bool :=
  ((nat_of_ascii c =? 32) || ((9 <=? nat_of_ascii c) && (nat_of_ascii c <=? 13)))%nat.

(** [for (std::string pair; ss >> pair; )]: the tokens of the stream, split
    at whitespace; [tok] is the token being read. *)
Fixpoint tokens_from (s : string) (tok : string) : list string :=
  match s with
  | EmptyString => match tok with EmptyString => [] | _ => [tok] end
  | String c s' =>
      if isspace c
      then match tok with
           | EmptyString => tokens_from s' EmptyString
           | _ => tok :: tokens_from s' EmptyString
           end
      else tokens_from s' (tok ++ String c EmptyString)%string
  end.

Definition tokens (s : string) : list string := tokens_from s EmptyString.

(** [s.find(c)]: the index of the first [c], [None] for [npos]. *)
Fixpoint find_char (c : ascii) (s : string) : option nat :=
  match s with
  | EmptyString => None
  | String c' s' =>
      if Ascii.eqb c' c then Some O else option_map S (find_char c s')
  end.

Fixpoint str_take (n : nat) (s : string) : string :=
  match n, s with
  | S n', String c s' => String c (str_take n' s')
  | _, _ => EmptyString
  end.

Fixpoint str_drop (n : nat) (s : string) : string :=
  match n, s with
  | S n', String _ s' => str_drop n' s'
  | _, _ => s
  end.

(** [pair.substr(0, pair.find('='))]; with [npos] the whole string. *)
Definition token_key (pair : string) : string :=
  match find_char "="%char pair with
  | Some p => str_take p pair
  | None => pair
  end.

(** [pair.substr(pair.find('=') + 1)]; [npos + 1] wraps around to 0, which
    gives the whole string. *)
Definition token_value (pair : string) : string :=
  match find_char "="%char pair with
  | Some p => str_drop (p + 1) pair
  | None => str_drop 0 pair
  end.

(** [std::map<key, value> meta], kept as an association list with one
    binding per key. *)
Definition meta_map : Type := list (string * string).

(** [meta[key] = { value }] *)
Fixpoint meta_set (key value : string) (m : meta_map) : meta_map :=
  match m with
  | [] => [(key, value)]
  | (k, v) :: m' =>
      if String.eqb k key then (k, value) :: m' else (k, v) :: meta_set key value m'
  end.

(** [meta.find(key)]; [None] is [meta.end()]. *)
Fixpoint meta_find (key : string) (m : meta_map) : option string :=
  match m with
  | [] => None
  | (k, v) :: m' => if String.eqb k key then Some v else meta_find key m'
  end.

Record agent : Type := { meta : meta_map }.

Definition agent_insert (m : meta_map) (pair : string) : meta_map :=
  meta_set (token_key pair) (token_value pair) m.

(** [agent(args)] *)
Definition agent_new (args : string) : agent :=
  {| meta := fold_left agent_insert
                       (tokens ("name=unknown role=unknown " ++ args)%string) [] |}.

(** [property(key)] is [meta.at(key)]: [None] stands for the
    [std::out_of_range] it throws on a missing key. *)
Definition property (a : agent) (key : string) : option string :=
  meta_find key (meta a).

Definition notify (a : agent) (msg : string) : agent :=
  {| meta := agent_insert (meta a) msg |}.

Definition name (a : agent) : option string := property a "name".
Definition role (a : agent) : option string := property a "role".

(** The constructors of the derived classes prepend their own defaults. *)
Definition rndenv_agent (args : string) : agent :=
  agent_new ("name=random role=environment " ++ args)%string.
Definition player_agent (args : string) : agent :=
  agent_new ("name=dummy role=player " ++ args)%string.
Definition TD_player_agent (args : string) : agent :=
  agent_new ("name=TD role=player " ++ args)%string.

(** The value of the last token of [l] whose key is [key]. *)
Definition last_value_step (key : string) (acc : option string) (pair : string)
  : option string :=
  if String.eqb (token_key pair) key then Some (token_value pair) else acc.

Definition last_value (key : string) (l : list string) : option string :=
  fold_left (last_value_step key) l None.

(** The defaults a class puts in front of the arguments. *)
Definition class_default (nm rl key : string) : option string :=
  if String.eqb "name" key then Some nm
  else if String.eqb "role" key then Some rl
  else None.

(** ** player: the dummy player *)

(** [meta.find(key) != meta.end()] *)
Definition has_key (a : agent) (key : string) : bool :=
  match property a key with Some _ => true | None => false end.

Record player : Type := {
  player_base : agent;
  player_opcode : list Z;
  play_style : Z
}.

(** [player(args)] *)
Definition player_new (args : string) : player :=
  let a := player_agent args in
  {| player_base := a;
     player_opcode := [0; 1; 2; 3];
     play_style := if has_key a "random" then 0
                   else if has_key a "greedy1" then 1
                   else if has_key a "greedy2" then 2
                   else 0 |}.

Section Player.

Variable slide : board -> Z -> Z * board.

(** [play_style == 0]: the first direction of the shuffled [opcode] whose
    slide does not return -1; past the loop, the final [return action()]. *)
Fixpoint first_legal (before : board) (ops : list Z) : action :=
  match ops with
  | [] => action_null
  | op :: rest =>
      if negb (fst (slide before op) =? -1) then action_slide op
      else first_legal before rest
  end.

(** [play_style == 1]: the pair is [(best_op, best_reward)]. *)
Definition greedy1_step (before : board) (best : Z * Z) (op : Z) : Z * Z :=
  let reward := fst (slide before op) in
  if reward =? -1 then best
  else if reward >? snd best then (op, reward)
  else best.

(** [play_style == 2], the loop over [op2]. *)
Definition greedy2_inner (next_1_state : board) (op1 reward1 : Z)
    (best : Z * Z) (op2 : Z) : Z * Z :=
  let reward2 := fst (slide next_1_state op2) in
  if reward2 <? 0 then best
  else if reward1 + reward2 >? snd best then (op1, reward1 + reward2)
  else best.

(** [play_style == 2], the loop over [op1]. *)
Definition greedy2_outer (ops : list Z) (before : board) (best : Z * Z)
    (op1 : Z) : Z * Z :=
  let reward1 := fst (slide before op1) in
  let next_1_state := snd (slide before op1) in
  if reward1 <? 0 then best
  else fold_left (greedy2_inner next_1_state op1 reward1) ops best.

(** [player::take_action]; [shuffled] is [opcode] after [std::shuffle]. *)
Definition player_take_action (shuffled : list Z) (p : player)
    (before : board) : action * player :=
  if play_style p =? 0 then
    (first_legal before shuffled,
     {| player_base := player_base p; player_opcode := shuffled;
        play_style := play_style p |})
  else if play_style p =? 1 then
    (action_slide
       (fst (fold_left (greedy1_step before) (player_opcode p) (-1, -1))), p)
  else if play_style p =? 2 then
    (action_slide
       (fst (fold_left (greedy2_outer (player_opcode p) before)
                       (player_opcode p) (-1, -1))), p)
  else (action_null, p).

End Player.

(** A left-to-right scan keeping the first candidate of greatest integer
    key: the shape of the greedy loops. *)
Definition zscan_step (A S : Type) (key : S -> Z) (cand : A -> option S)
    (best : S) (x : A) : S :=
  match cand x with
  | Some c => if key c >? key best then c else best
  | None => best
  end.

Definition greedy1_cand (slide : board -> Z -> Z * board) (before : board)
    (op : Z) : option (Z * Z) :=
  if fst (slide before op) =? -1 then None else Some (op, fst (slide before op)).

(** The reward of sliding [op1] and then [op2]. *)
Definition second_reward (slide : board -> Z -> Z * board) (before : board)
    (op1 op2 : Z) : Z :=
  fst (slide (snd (slide before op1)) op2).

Definition pair_reward (slide : board -> Z -> Z * board) (before : board)
    (op1 op2 : Z) : Z :=
  fst (slide before op1) + second_reward slide before op1 op2.

(** [op1] then [op2] are both legal on [before]. *)
Definition legal_pair (slide : board -> Z -> Z * board) (before : board)
    (op1 op2 : Z) : Prop :=
  legal slide before op1 /\ In op2 opcode
  /\ 0 <= second_reward slide before op1 op2.

Definition greedy2_cand (slide : board -> Z -> Z * board) (before : board)
    (pr : Z * Z) : option (Z * Z) :=
  if second_reward slide before (fst pr) (snd pr) <? 0 then None
  else Some (fst pr, pair_reward slide before (fst pr) (snd pr)).

(** The pairs the two loops of greedy2 visit, in order. *)
Definition greedy2_pairs (slide : board -> Z -> Z * board) (before : board)
    (ops : list Z) : list (Z * Z) :=
  flat_map (fun op1 => if fst (slide before op1) <? 0 then []
                       else map (pair op1) ops) ops.

(** Some token of [l] has the key [key]. *)
Definition mentions (key : string) (l : list string) : bool :=
  existsb (fun pair => String.eqb (token_key pair) key) l.

(** ** Constructing the TD player *)

(** [weight_agent(args)] then [TD_player(args)].  The tables are allocated
    when the key "init" is bound and read from a file when "load" is bound;
    the learning rate is 0 unless "alpha" is bound, the horizon is 1 unless
    "n" is bound.  Library calls are parameters: [stod_float] and [stod_int]
    are [std::stod] followed by the conversion to [float] or [int] ([None]
    for the exception it throws), [load_weights] reads the file ([None] when
    the file cannot be opened and the process exits), [unallocated] is the
    empty vector [net] starts as. *)
Definition TD_player_new {F : Type} {FO : FloatOps F}
    (stod_float : string -> option F) (stod_int : string -> option Z)
    (load_weights : string -> network F -> option (network F))
    (unallocated : network F) (args : string) : option (TD_player F) :=
  let a := TD_player_agent args in
  let net0 := match property a "init" with
              | Some _ => init_weights
              | None => unallocated
              end in
  match (match property a "load" with
         | Some path => load_weights path net0
         | None => Some net0
         end) with
  | None => None
  | Some net1 =>
      match (match property a "alpha" with
             | Some v => stod_float v
             | None => Some (f_of_int 0)
             end) with
      | None => None
      | Some al =>
          match (match property a "n" with
                 | Some v => stod_int v
                 | None => Some 1
                 end) with
          | None => None
          | Some n =>
              Some {| net := net1; alpha := al; n_step := n; history := [] |}
          end
      end
  end.

(** ** Quantities used in the further statements *)

(** The rewards recorded after step [i]. *)
Definition rewards_after (history : list step) (i : nat) : Z :=
  fold_left Z.add (map reward (skipn (S i) history)) 0.

(** A board that differs from [corner_board] in its last cell only. *)
Definition corner_board' : board :=
  [1; 0; 0; 0;  0; 0; 0; 0;  0; 0; 0; 0;  0; 0; 0; 3].

(** [player2] with horizon 0. *)
Definition player2_zero : TD_player Q :=
  {| net := half_net; alpha := 1 # 64; n_step := 0; history := episode2 |}.

(** ** Single precision: the order of comparisons and the scores *)

Definition b32_is_nan (x : spec_float) : bool :=
  match x with S754_nan => true | _ => false end.

(** A rank whose lexicographic order is the order [SFcompare] decides on
    the values that are not NaN. *)
Definition b32_rank (x : spec_float) : Z * Z * Z :=
  match x with
  | S754_nan => (0, 0, 0)
  | S754_zero _ => (0, 0, 0)
  | S754_infinity true => (-2, 0, 0)
  | S754_infinity false => (2, 0, 0)
  | S754_finite true m e => (-1, - e, - Zpos m)
  | S754_finite false m e => (1, e, Zpos m)
  end.

Definition lex_lt (p q : Z * Z * Z) : Prop :=
  fst (fst p) < fst (fst q)
  \/ (fst (fst p) = fst (fst q)
      /\ (snd (fst p) < snd (fst q)
          \/ (snd (fst p) = snd (fst q) /\ snd p < snd q))).

(** [reward + expect_value(after)] of direction [op] as the code computes
    it: the [int] reward converted to [float] and one float addition. *)
Definition float_move_score {F : Type} {FO : FloatOps F}
    (slide : board -> Z -> Z * board) (net0 : network F) (before : board)
    (op : Z) : F :=
  f_add (f_of_int (fst (slide before op)))
        (expect_value slide net0 (snd (slide before op))).

(** [reward1 + value1] of direction [op] in the inner loops of
    [expect_value]. *)
Definition float_slide_score {F : Type} {FO : FloatOps F}
    (slide : board -> Z -> Z * board) (net0 : network F) (state : board)
    (op : Z) : F :=
  f_add (f_of_int (fst (slide state op)))
        (estimate_value net0 (snd (slide state op))).

(** [best_reward + best_value] of the initial locals, [-1 + -FLT_MAX]. *)
Definition initial_score {F : Type} {FO : FloatOps F} : F :=
  f_add (f_of_int (-1)) f_lowest.

(** A left-to-right scan that replaces the record it keeps when the
    candidate's key compares greater. *)
Definition fscan_step (S K : Type) (key : S -> K) (gt : K -> K -> bool)
    (cand : Z -> option S) (best : S) (op : Z) : S :=
  match cand op with
  | Some c => if gt (key c) (key best) then c else best
  | None => best
  end.

Definition float_pair_key {F : Type} {FO : FloatOps F} (p : Z * F) : F :=
  f_add (f_of_int (fst p)) (snd p).

Definition float_slide_cand {F : Type} {FO : FloatOps F}
    (slide : board -> Z -> Z * board) (net0 : network F) (state : board)
    (op : Z) : option (Z * F) :=
  if fst (slide state op) <? 0 then None
  else Some (fst (slide state op), estimate_value net0 (snd (slide state op))).

Definition float_search_cand {F : Type} {FO : FloatOps F}
    (slide : board -> Z -> Z * board) (net0 : network F) (before : board)
    (op : Z) : option (search F) :=
  if fst (slide before op) <? 0 then None
  else Some (search_of slide net0 before op).

(** [bv] is the best value the inner loop of [expect_value] records for
    [state]: the lowest float when no legal direction's score compares
    greater than the initial score; otherwise the estimate of the board
    reached by the first legal direction than whose score no legal
    direction's score is greater.  [nan] tells the scores that are NaN: such
    a score compares greater than nothing and nothing compares greater than
    it. *)
Definition float_best_estimate {F : Type} {FO : FloatOps F} (nan : F -> bool)
    (slide : board -> Z -> Z * board) (net0 : network F) (state : board)
    (bv : F) : Prop :=
  (bv = f_lowest
   /\ forall op, legal slide state op ->
                 f_gt (float_slide_score slide net0 state op) initial_score
                 = false)
  \/ exists op,
       legal slide state op
       /\ bv = estimate_value net0 (snd (slide state op))
       /\ f_gt (float_slide_score slide net0 state op) initial_score = true
       /\ (forall op', legal slide state op' ->
                       f_gt (float_slide_score slide net0 state op')
                            (float_slide_score slide net0 state op) = false)
       /\ (forall op', legal slide state op' -> op' < op ->
                       nan (float_slide_score slide net0 state op') = true
                       \/ f_gt (float_slide_score slide net0 state op)
                               (float_slide_score slide net0 state op') = true).

(** The same in single precision. *)
Definition b32_best_estimate (slide : board -> Z -> Z * board)
    (net0 : network spec_float) (state : board) (bv : spec_float) : Prop :=
  float_best_estimate (FO := binary32) b32_is_nan slide net0 state bv.

(** The accumulation of [expect_value] over the empty cells, in cell order:
    two float additions per cell, each term divided by the number of empty
    cells; [best t i] stands for the best value found after placing the tile
    [t] in cell [i]. *)
Definition accumulate_best {F : Type} {FO : FloatOps F}
    (best : Z -> nat -> F) (after : board) : F :=
  let empty_tile := empty_tiles after in
  let num_empty := Z.of_nat (List.length empty_tile) in
  fold_left
    (fun value i =>
       f_add (f_add value
                    (f_div (f_mul f_0_9 (best 1 i)) (f_of_int num_empty)))
             (f_div (f_mul f_0_1 (best 2 i)) (f_of_int num_empty)))
    empty_tile f_zero.

(** A network whose table 0 holds the lowest float everywhere. *)
Definition lowest_net {F : Type} {FO : FloatOps F} : network F :=
  fun k _ => if Nat.eqb k 0 then f_lowest else f_zero.

(** A TD player with the weights [lowest_net]. *)
Definition lowest_player : TD_player spec_float :=
  {| net := lowest_net; alpha := f_0_1; n_step := 1; history := [] |}.


(** The [int] computations of [close_episode] stay inside 32 bits: the
    index sum [i + n_step] and every sum of recorded rewards. *)
Definition int_episode {F : Type} (st : TD_player F) : Prop :=
  rewards_nonneg (history st)
  /\ fold_left Z.add (map reward (history st)) 0 < 2 ^ 31
  /\ Z.of_nat (List.length (history st)) + n_step st < 2 ^ 31.

(** [player2] with horizon 2, the length of its episode. *)
Definition player2_long {F : Type} {FO : FloatOps F} : TD_player F :=
  {| net := half_net; alpha := f_div (f_of_int 1) (f_of_int 64);
     n_step := 2; history := episode2 |}.

(** The score the earlier [take_action] compares, and that of its initial
    locals, [-1 + -1000000.0]. *)
Definition agent_h_float_score {F : Type} {FO : FloatOps F}
    (slide : board -> Z -> Z * board) (net0 : network F) (before : board)
    (op : Z) : F :=
  f_add (f_of_int (fst (slide before op)))
        (Agent_h.estimate_value net0 (snd (slide before op))).

Definition agent_h_initial_score {F : Type} {FO : FloatOps F} : F :=
  f_add (f_of_int (-1)) (f_of_int (-1000000)).

Definition agent_h_float_key {F : Type} {FO : FloatOps F} (s : search F) : F :=
  f_add (f_of_int (best_reward s)) (best_value s).

Definition agent_h_float_search_of {F : Type} {FO : FloatOps F}
    (slide : board -> Z -> Z * board) (net0 : network F) (before : board)
    (op : Z) : search F :=
  {| best_op := op;
     best_reward := fst (slide before op);
     best_value := Agent_h.estimate_value net0 (snd (slide before op));
     best_after := snd (slide before op) |}.

Definition agent_h_float_cand {F : Type} {FO : FloatOps F}
    (slide : board -> Z -> Z * board) (net0 : network F) (before : board)
    (op : Z) : option (search F) :=
  if fst (slide before op) <? 0 then None
  else Some (agent_h_float_search_of slide net0 before op).

(** A network whose table 0 holds -2000000 everywhere. *)
Definition low_weights {F : Type} {FO : FloatOps F} : network F :=
  fun k _ => if Nat.eqb k 0 then f_of_int (-2000000) else f_zero.

(** * Properties *)

(** ** Feature index *)

Lemma base31_step (q d : Z) :
  0 <= d < 31 -> (q * 31 + d) mod 31 = d /\ (q * 31 + d) / 31 = q.
Proof.
  intros Hd. split.
  - symmetry. apply (Z.mod_unique _ _ q); lia.
  - symmetry. apply (Z.div_unique _ _ _ d); lia.
Qed.

Lemma extract_feature_digits (b : board) (p1 p2 p3 p4 p5 : nat) :
  cells_in_range b [p1; p2; p3; p4; p5] ->
  digits31 5 (extract_feature b p1 p2 p3 p4 p5)
  = map (cell_at b) [p1; p2; p3; p4; p5].
Proof.
  intros H. unfold cells_in_range in H. rewrite Forall_forall in H.
  assert (H1 := H p1 ltac:(simpl; tauto)). assert (H2 := H p2 ltac:(simpl; tauto)).
  assert (H3 := H p3 ltac:(simpl; tauto)). assert (H4 := H p4 ltac:(simpl; tauto)).
  assert (H5 := H p5 ltac:(simpl; tauto)). cbv beta in *.
  unfold extract_feature, digits31. cbn [digits31_rev rev app map].
  set (x1 := cell_at b p1) in *. set (x2 := cell_at b p2) in *.
  set (x3 := cell_at b p3) in *. set (x4 := cell_at b p4) in *.
  set (x5 := cell_at b p5) in *.
  replace (x1 * 31 * 31 * 31 * 31 + x2 * 31 * 31 * 31 + x3 * 31 * 31 + x4 * 31 + x5)
    with ((((x1 * 31 + x2) * 31 + x3) * 31 + x4) * 31 + x5) by ring.
  destruct (base31_step (((x1 * 31 + x2) * 31 + x3) * 31 + x4) H5) as [-> ->].
  destruct (base31_step ((x1 * 31 + x2) * 31 + x3) H4) as [-> ->].
  destruct (base31_step (x1 * 31 + x2) H3) as [-> ->].
  destruct (base31_step x1 H2) as [-> ->].
  rewrite Z.mod_small by lia. reflexivity.
Qed.

Lemma extract_feature2_digits (b : board) (p1 p2 p3 p4 : nat) :
  cells_in_range b [p1; p2; p3; p4] ->
  digits31 4 (extract_feature2 b p1 p2 p3 p4)
  = map (cell_at b) [p1; p2; p3; p4].
Proof.
  intros H. unfold cells_in_range in H. rewrite Forall_forall in H.
  assert (H1 := H p1 ltac:(simpl; tauto)). assert (H2 := H p2 ltac:(simpl; tauto)).
  assert (H3 := H p3 ltac:(simpl; tauto)). assert (H4 := H p4 ltac:(simpl; tauto)).
  cbv beta in *.
  unfold extract_feature2, digits31. cbn [digits31_rev rev app map].
  set (x1 := cell_at b p1) in *. set (x2 := cell_at b p2) in *.
  set (x3 := cell_at b p3) in *. set (x4 := cell_at b p4) in *.
  replace (x1 * 31 * 31 * 31 + x2 * 31 * 31 + x3 * 31 + x4)
    with (((x1 * 31 + x2) * 31 + x3) * 31 + x4) by ring.
  destruct (base31_step ((x1 * 31 + x2) * 31 + x3) H4) as [-> ->].
  destruct (base31_step (x1 * 31 + x2) H3) as [-> ->].
  destruct (base31_step x1 H2) as [-> ->].
  rewrite Z.mod_small by lia. reflexivity.
Qed.

(** C6.  For boards whose exponents at the tuple's cells lie in [0, 31):
    boards that differ at some cell of the tuple have different feature
    indices, and the base-31 digits of the index, most significant first,
    are the tuple's cell exponents in the tuple's order.  Both for the
    five-cell [extract_feature] and the four-cell [extract_feature2]. *)
Theorem extract_feature_injective_roundtrip :
  forall (b1 b2 : board) (p1 p2 p3 p4 p5 : nat),
    cells_in_range b1 [p1; p2; p3; p4; p5] ->
    cells_in_range b2 [p1; p2; p3; p4; p5] ->
    (map (cell_at b1) [p1; p2; p3; p4; p5] <> map (cell_at b2) [p1; p2; p3; p4; p5] ->
     extract_feature b1 p1 p2 p3 p4 p5 <> extract_feature b2 p1 p2 p3 p4 p5)
    /\ (map (cell_at b1) [p1; p2; p3; p4] <> map (cell_at b2) [p1; p2; p3; p4] ->
        extract_feature2 b1 p1 p2 p3 p4 <> extract_feature2 b2 p1 p2 p3 p4)
    /\ digits31 5 (extract_feature b1 p1 p2 p3 p4 p5)
       = map (cell_at b1) [p1; p2; p3; p4; p5]
    /\ digits31 4 (extract_feature2 b1 p1 p2 p3 p4)
       = map (cell_at b1) [p1; p2; p3; p4].
Proof.
  intros b1 b2 p1 p2 p3 p4 p5 H1 H2.
  assert (H1' : cells_in_range b1 [p1; p2; p3; p4]).
  { unfold cells_in_range in *. rewrite Forall_forall in *.
    intros x Hx. apply H1. simpl in *. tauto. }
  assert (H2' : cells_in_range b2 [p1; p2; p3; p4]).
  { unfold cells_in_range in *. rewrite Forall_forall in *.
    intros x Hx. apply H2. simpl in *. tauto. }
  repeat split.
  - intros Hne Heq. apply Hne.
    rewrite <- (extract_feature_digits H1), <- (extract_feature_digits H2).
    now rewrite Heq.
  - intros Hne Heq. apply Hne.
    rewrite <- (extract_feature2_digits H1'), <- (extract_feature2_digits H2').
    now rewrite Heq.
  - now apply extract_feature_digits.
  - now apply extract_feature2_digits.
Qed.

(** The statement of C6 on the corner board and the stuck board, tuple 0. *)
Lemma extract_feature_injective_roundtrip_witness :
  cells_in_range corner_board [0; 1; 2; 3; 4]%nat
  /\ cells_in_range stuck_board [0; 1; 2; 3; 4]%nat
  /\ extract_feature corner_board 0 1 2 3 4 <> extract_feature stuck_board 0 1 2 3 4
  /\ digits31 5 (extract_feature stuck_board 0 1 2 3 4) = [1; 2; 1; 2; 2].
Proof.
  assert (H1 : cells_in_range corner_board [0; 1; 2; 3; 4]%nat)
    by (repeat constructor; cbn; lia).
  assert (H2 : cells_in_range stuck_board [0; 1; 2; 3; 4]%nat)
    by (repeat constructor; cbn; lia).
  split; [exact H1 | split; [exact H2 | ]].
  destruct (extract_feature_injective_roundtrip H1 H2) as (Hinj & _ & _ & _).
  destruct (extract_feature_injective_roundtrip H2 H1) as (_ & _ & Hdig & _).
  split; [apply Hinj; cbn; discriminate | exact Hdig].
Defined.

Lemma cells_in_range_incl (b : board) (l l' : list nat) :
  incl l' l -> cells_in_range b l -> cells_in_range b l'.
Proof.
  unfold cells_in_range. rewrite !Forall_forall. intros Hi H x Hx. auto.
Qed.

Lemma extract_feature_range (b : board) (p1 p2 p3 p4 p5 : nat) :
  cells_in_range b [p1; p2; p3; p4; p5] ->
  0 <= extract_feature b p1 p2 p3 p4 p5 < 31 * 31 * 31 * 31 * 31.
Proof.
  intros H. unfold cells_in_range in H. rewrite Forall_forall in H.
  assert (H1 := H p1 ltac:(simpl; tauto)). assert (H2 := H p2 ltac:(simpl; tauto)).
  assert (H3 := H p3 ltac:(simpl; tauto)). assert (H4 := H p4 ltac:(simpl; tauto)).
  assert (H5 := H p5 ltac:(simpl; tauto)). cbv beta in *.
  unfold extract_feature. lia.
Qed.

Lemma extract_feature2_range (b : board) (p1 p2 p3 p4 : nat) :
  cells_in_range b [p1; p2; p3; p4] ->
  0 <= extract_feature2 b p1 p2 p3 p4 < 31 * 31 * 31 * 31.
Proof.
  intros H. unfold cells_in_range in H. rewrite Forall_forall in H.
  assert (H1 := H p1 ltac:(simpl; tauto)). assert (H2 := H p2 ltac:(simpl; tauto)).
  assert (H3 := H p3 ltac:(simpl; tauto)). assert (H4 := H p4 ltac:(simpl; tauto)).
  cbv beta in *.
  unfold extract_feature2. lia.
Qed.

(** Every index used by [estimate_value] and [adjust_value] is inside the
    table allocated for it by [init_weights]. *)
Lemma features_in_range (b : board) :
  cells_in_range b (seq 0 16) ->
  Forall (fun ki => 0 <= snd ki < table_size (fst ki)) (indexed_features b).
Proof.
  intros H.
  unfold indexed_features, features.
  cbn [combine seq].
  repeat (apply Forall_cons;
          [ cbn [fst snd table_size Nat.ltb Nat.leb];
            first [ apply extract_feature_range | apply extract_feature2_range ];
            apply (cells_in_range_incl (l := seq 0 16)); [ | exact H ];
            intros x Hx; cbn in Hx |- *; intuition lia
          | ]).
  apply Forall_nil.
Qed.

(** ** Weight updates *)

Section Generic_properties.

Context {F : Type} {FO : FloatOps F}.
Variable slide : board -> Z -> Z * board.

Lemma net_set_same (net : network F) k idx v : net_set net k idx v k idx = v.
Proof. unfold net_set. now rewrite Nat.eqb_refl, Z.eqb_refl. Qed.

Lemma net_set_other (net : network F) k idx v k' idx' :
  (k', idx') <> (k, idx) -> net_set net k idx v k' idx' = net k' idx'.
Proof.
  intros Hne. unfold net_set.
  destruct (Nat.eqb_spec k' k); [ | reflexivity ].
  destruct (Z.eqb_spec idx' idx); [ | reflexivity ].
  subst. now elim Hne.
Qed.

Lemma selects_false_fst k idx (l : list (nat * Z)) :
  ~ In k (map fst l) -> selects k idx l = false.
Proof.
  induction l as [ | [k0 i0] l IH ]; intros Hn; [ reflexivity | ].
  change (selects k idx ((k0, i0) :: l))
    with ((Nat.eqb k k0 && Z.eqb idx i0) || selects k idx l)%bool.
  cbn [map fst In] in Hn.
  rewrite IH by tauto.
  destruct (Nat.eqb_spec k k0); [ subst; tauto | reflexivity ].
Qed.

(** Adding one scalar at each listed entry, the tables being distinct. *)
Lemma add_at_each_spec (adjust : F) (l : list (nat * Z)) :
  NoDup (map fst l) ->
  forall (net : network F) (k : nat) (idx : Z),
    fold_left (fun net ki =>
                 net_set net (fst ki) (snd ki)
                         (f_add (net (fst ki) (snd ki)) adjust)) l net k idx
    = if selects k idx l then f_add (net k idx) adjust else net k idx.
Proof.
  induction l as [ | [k0 i0] l IH ]; intros Hnd net k idx.
  - reflexivity.
  - cbn [map fst] in Hnd. inversion Hnd as [ | ? ? Hnotin Hnd' ]; subst.
    cbn [fold_left fst snd]. rewrite IH by assumption.
    change (selects k idx ((k0, i0) :: l))
      with ((Nat.eqb k k0 && Z.eqb idx i0) || selects k idx l)%bool.
    destruct (Nat.eqb_spec k k0) as [ -> | Hk ].
    + rewrite (@selects_false_fst k0 idx l Hnotin).
      destruct (Z.eqb_spec idx i0) as [ -> | Hi ]; cbn [andb orb].
      * now rewrite net_set_same.
      * rewrite net_set_other by congruence. reflexivity.
    + cbn [andb orb]. rewrite net_set_other by congruence. reflexivity.
Qed.

Lemma selects_combine_seq k idx (l : list Z) (s : nat) :
  selects k idx (combine (seq s (length l)) l)
  = ((s <=? k)%nat && (k <? s + length l)%nat && (idx =? nth (k - s) l 0))%bool.
Proof.
  revert s. induction l as [ | x l IH ]; intros s.
  - change (selects k idx (combine (seq s (length (@nil Z))) [])) with false.
    cbn [length].
    destruct (Nat.leb_spec s k); destruct (Nat.ltb_spec k (s + 0));
      cbn [andb]; try reflexivity; lia.
  - cbn [length seq combine].
    change (selects k idx ((s, x) :: combine (seq (S s) (length l)) l))
      with ((Nat.eqb k s && Z.eqb idx x)
            || selects k idx (combine (seq (S s) (length l)) l))%bool.
    rewrite IH.
    destruct (Nat.eqb_spec k s) as [ -> | Hne ].
    + rewrite Nat.sub_diag. cbn [nth].
      replace (S s <=? s)%nat with false by (symmetry; apply Nat.leb_gt; lia).
      replace (s <=? s)%nat with true by (symmetry; apply Nat.leb_le; lia).
      replace (s <? s + S (length l))%nat with true
        by (symmetry; apply Nat.ltb_lt; lia).
      cbn [andb orb]. now rewrite orb_false_r.
    + cbn [andb orb].
      destruct (Nat.leb_spec (S s) k) as [Hle | Hgt].
      * replace (s <=? k)%nat with true by (symmetry; apply Nat.leb_le; lia).
        replace (k - s)%nat with (S (k - S s)) by lia. cbn [nth].
        replace (S s + length l)%nat with (s + S (length l))%nat by lia.
        reflexivity.
      * replace (s <=? k)%nat with false by (symmetry; apply Nat.leb_gt; lia).
        reflexivity.
Qed.

Lemma selects_indexed_features k idx (b : board) :
  selects k idx (indexed_features b)
  = ((k <? 32)%nat && (idx =? nth k (features b) 0))%bool.
Proof.
  unfold indexed_features.
  change 32%nat with (length (features b)) at 1.
  rewrite selects_combine_seq. rewrite Nat.sub_0_r. reflexivity.
Qed.

Lemma indexed_features_tables (b : board) :
  map fst (indexed_features b) = seq 0 32.
Proof. reflexivity. Qed.

(** C10.  One [adjust_value] call computes the scalar
    [alpha * (target - estimate_value(board))] once, from the weights before
    the call, and adds it to exactly the entry [net[k][features k]] of each
    table k < 32; every other entry of every table keeps its value. *)
Theorem adjust_value_one_entry_per_table :
  forall (net : network F) (alpha : F) (b : board) (target : Z)
         (k : nat) (idx : Z),
    adjust_value net alpha b target k idx
    = if ((k <? 32)%nat && (idx =? nth k (features b) 0))%bool
      then f_add (net k idx)
                 (f_mul alpha (f_sub (f_of_int target) (estimate_value net b)))
      else net k idx.
Proof.
  intros net0 a b target k idx. unfold adjust_value.
  rewrite add_at_each_spec.
  - now rewrite selects_indexed_features.
  - rewrite indexed_features_tables. apply seq_NoDup.
Qed.

End Generic_properties.

(** ** Episode protocol *)

Lemma fold_left_invariant (A B : Type) (P : A -> Prop) (f : A -> B -> A)
    (l : list B) (a : A) :
  P a -> (forall x b, In b l -> P x -> P (f x b)) -> P (fold_left f l a).
Proof.
  revert a. induction l as [ | b l IH ]; intros a Ha Hstep; cbn.
  - exact Ha.
  - apply IH.
    + apply Hstep; [ now left | exact Ha ].
    + intros x b' Hb. apply Hstep. now right.
Qed.

Section Episode_properties.

Context {F : Type} {FO : FloatOps F}.
Variable slide : board -> Z -> Z * board.

(** C5.  With an empty history, or with a learning rate that compares
    equal to 0, [close_episode] returns the agent as it was: every entry of
    every weight table is unchanged. *)
Theorem close_episode_noop :
  forall (st : TD_player F),
    history st = [] \/ f_eq (alpha st) (f_of_int 0) = true ->
    close_episode st = st
    /\ forall (k : nat) (idx : Z), net (close_episode st) k idx = net st k idx.
Proof.
  intros st H.
  assert (E : close_episode st = st).
  { unfold close_episode. destruct H as [H | H].
    - now rewrite H.
    - rewrite H. now destruct (length (history st) =? 0)%nat. }
  split; [ exact E | intros k idx; now rewrite E ].
Qed.

Lemma take_action_search_selected (net0 : network F) (before : board) :
  selected slide net0 before (take_action_search slide net0 before).
Proof.
  unfold take_action_search.
  apply fold_left_invariant.
  - now left.
  - intros s op Hop Hs. unfold take_action_step.
    destruct (Z.ltb_spec (fst (slide before op)) 0) as [Hneg | Hpos];
      [ exact Hs | ].
    destruct (f_gt _ _); [ | exact Hs ].
    right. exists op. split; [ split; assumption | reflexivity ].
Qed.

Lemma legal_not_sentinel (b : board) (op : Z) : legal slide b op -> op <> -1.
Proof.
  intros [Hin _] ->. unfold opcode in Hin. cbn in Hin.
  intuition discriminate.
Qed.

(** The two outcomes of [take_action]. *)
Lemma take_action_cases (st : TD_player F) (before : board) :
  take_action slide st before = (action_slide (-1), st)
  \/ exists op,
       legal slide before op
       /\ take_action slide st before
          = (action_slide op,
             push_back st (step_of slide before op)).
Proof.
  unfold take_action.
  destruct (take_action_search_selected (net st) before) as [E | (op & Hl & E)];
    rewrite E.
  - left. reflexivity.
  - right. exists op. split; [ exact Hl | ].
    unfold search_of, step_of. cbn [best_op best_reward best_after].
    destruct (Z.eqb_spec op (-1)) as [Heq | Hne]; [ | reflexivity ].
    now elim (legal_not_sentinel Hl).
Qed.

(** On a board where every direction's slide
    returns -1, [take_action] returns [action::slide(-1)], the slide action
    built from the initial [best_op], and leaves the history as it was. *)
Theorem take_action_no_legal_direction :
  forall (st : TD_player F) (before : board),
    (forall op, In op opcode -> fst (slide before op) = -1) ->
    take_action slide st before = (action_slide (-1), st).
Proof.
  intros st before Hill.
  destruct (take_action_cases st before) as [E | (op & [Hin Hpos] & _)].
  - exact E.
  - rewrite (Hill op Hin) in Hpos. lia.
Qed.

Lemma close_episode_history (st : TD_player F) :
  history (close_episode st) = history st.
Proof.
  unfold close_episode.
  destruct (length (history st) =? 0)%nat; [ reflexivity | ].
  destruct (f_eq _ _); reflexivity.
Qed.

Lemma take_action_history (st : TD_player F) (before : board) :
  history (snd (take_action slide st before)) = history st
  \/ exists op,
       legal slide before op
       /\ history (snd (take_action slide st before))
          = history st ++ [ step_of slide before op ].
Proof.
  destruct (take_action_cases st before) as [E | (op & Hl & E)]; rewrite E.
  - now left.
  - right. exists op. split; [ exact Hl | reflexivity ].
Qed.

Lemma take_action_rewards_nonneg (st : TD_player F) (before : board) :
  rewards_nonneg (history st) ->
  rewards_nonneg (history (snd (take_action slide st before))).
Proof.
  intros Hinv.
  destruct (take_action_history st before) as [E | (op & Hl & E)]; rewrite E.
  - exact Hinv.
  - unfold rewards_nonneg. apply Forall_app. split; [ exact Hinv | ].
    constructor; [ | constructor ]. cbn [reward step_of]. apply Hl.
Qed.

Lemma reachable_rewards_nonneg (st : TD_player F) :
  reachable slide st -> rewards_nonneg (history st).
Proof.
  induction 1 as [ st E | st _ _ | st before _ IH | st _ IH ].
  - rewrite E. constructor.
  - constructor.
  - now apply take_action_rewards_nonneg.
  - now rewrite close_episode_history.
Qed.

(** C9.  In every agent the driver can reach, every reward in the history
    is >= 0, and each operation keeps it so: [open_episode] empties the
    history; [take_action] either leaves it alone or appends one step, whose
    reward is the (nonnegative) reward of a legal slide of the board it was
    given; [close_episode] returns the history it was given. *)
Theorem history_rewards_nonneg :
  forall (st : TD_player F) (before : board),
    reachable slide st ->
    rewards_nonneg (history st)
    /\ history (open_episode st) = []
    /\ rewards_nonneg (history (snd (take_action slide st before)))
    /\ (history (snd (take_action slide st before)) = history st
        \/ exists op,
             legal slide before op
             /\ history (snd (take_action slide st before))
                = history st ++ [ step_of slide before op ])
    /\ history (close_episode st) = history st.
Proof.
  intros st before Hr.
  pose proof (reachable_rewards_nonneg Hr) as Hinv.
  split; [ exact Hinv | ].
  split; [ reflexivity | ].
  split; [ now apply take_action_rewards_nonneg | ].
  split; [ apply take_action_history | apply close_episode_history ].
Qed.

End Episode_properties.

(** ** The random environment *)

Lemma rndenv_scan_null (after0 : board) (popup : Z) (space0 : list nat) :
  rndenv_scan after0 space0 popup = action_null
  <-> forall pos, In pos space0 -> cell_at after0 pos <> 0.
Proof.
  induction space0 as [ | pos rest IH ]; cbn [rndenv_scan].
  - split; [ intros _ pos [] | reflexivity ].
  - destruct (Z.eqb_spec (cell_at after0 pos) 0) as [Hz | Hnz]; cbn [negb].
    + split; [ discriminate | ].
      intros H. elim (H pos); [ now left | exact Hz ].
    + rewrite IH. split.
      * intros H p [<- | Hp]; [ exact Hnz | now apply H ].
      * intros H p Hp. apply H. now right.
Qed.

Lemma rndenv_scan_place (after0 : board) (popup : Z) (space0 : list nat) :
  rndenv_scan after0 space0 popup = action_null
  \/ exists pos tile,
       rndenv_scan after0 space0 popup = action_place pos tile
       /\ In pos space0 /\ cell_at after0 pos = 0 /\ (tile = 1 \/ tile = 2).
Proof.
  induction space0 as [ | pos rest IH ]; cbn [rndenv_scan].
  - now left.
  - destruct (Z.eqb_spec (cell_at after0 pos) 0) as [Hz | Hnz]; cbn [negb].
    + right. exists pos, (if negb (popup =? 0) then 1 else 2).
      repeat split; [ now left | exact Hz | ].
      destruct (negb (popup =? 0)); [ now left | now right ].
    + destruct IH as [IH | (p & t & E & Hin & Hz & Ht)]; [ now left | ].
      right. exists p, t. repeat split; [ exact E | now right | exact Hz | exact Ht ].
Qed.

(** C8.  Whatever the shuffle and the draw, the environment's [take_action]
    returns the null action exactly when no cell of the board is empty;
    otherwise it returns [place(pos, tile)] with [pos] an empty cell of the
    board and [tile] 1 or 2.  The shuffled [space] stays a permutation of
    0 .. 15. *)
Theorem rndenv_take_action_spec :
  forall (env : rndenv) (shuffled : list nat) (popup : Z) (after0 : board),
    Permutation (seq 0 16) (space env) ->
    Permutation (space env) shuffled ->
    let a := fst (rndenv_take_action shuffled popup env after0) in
    (a = action_null <-> forall pos, (pos < 16)%nat -> cell_at after0 pos <> 0)
    /\ ((exists pos, (pos < 16)%nat /\ cell_at after0 pos = 0) ->
        exists pos tile,
          a = action_place pos tile /\ (pos < 16)%nat
          /\ cell_at after0 pos = 0 /\ (tile = 1 \/ tile = 2))
    /\ Permutation (seq 0 16) (space (snd (rndenv_take_action shuffled popup env after0))).
Proof.
  intros env shuffled popup after0 Hspace Hshuffle a.
  assert (Hperm : Permutation (seq 0 16) shuffled)
    by (eapply Permutation_trans; eassumption).
  assert (Hin : forall pos, In pos shuffled <-> (pos < 16)%nat).
  { intros pos. split.
    - intros H. apply (Permutation_in _ (Permutation_sym Hperm)) in H.
      apply in_seq in H. lia.
    - intros H. apply (Permutation_in _ Hperm). apply in_seq. lia. }
  assert (Hnull : a = action_null
                  <-> forall pos, (pos < 16)%nat -> cell_at after0 pos <> 0).
  { subst a. cbn [rndenv_take_action fst]. rewrite rndenv_scan_null.
    split; intros H pos Hp; apply H; now apply Hin. }
  split; [ exact Hnull | split; [ | exact Hperm ] ].
  intros (pos & Hpos & Hz).
  destruct (rndenv_scan_place after0 popup shuffled) as [E | (p & t & E & Hp & Hpz & Ht)].
  - exfalso. exact (proj1 Hnull E pos Hpos Hz).
  - exists p, t. repeat split; [ exact E | now apply Hin | exact Hpz | exact Ht ].
Qed.

(** ** Exact arithmetic

    From here on the float operations are the exact ones of [exact]: sums,
    products and quotients are not rounded and do not overflow, and the
    constants are the single-precision values of the literals.  Under the
    rounding of [binary32] a sum such as [reward + value] can round to
    [value]; the statements about maxima and about the size of the error
    are statements of exact arithmetic. *)

Lemma Q_gt_true (a b : Q) : Q_gt a b = true <-> (b < a)%Q.
Proof.
  unfold Q_gt. rewrite negb_true_iff. split.
  - intros H. apply Qnot_le_lt. intros Hle.
    apply Qle_bool_iff in Hle. congruence.
  - intros H. destruct (Qle_bool a b) eqn:E; [ | reflexivity ].
    apply Qle_bool_iff in E. exfalso. now apply (Qlt_not_le b a).
Qed.

Lemma Q_gt_false (a b : Q) : Q_gt a b = false <-> (a <= b)%Q.
Proof.
  unfold Q_gt. rewrite negb_false_iff. apply Qle_bool_iff.
Qed.

Lemma fold_left_ext (A B : Type) (f g : A -> B -> A) (l : list B) (a : A) :
  (forall x b, In b l -> f x b = g x b) -> fold_left f l a = fold_left g l a.
Proof.
  revert a. induction l as [ | b l IH ]; intros a H; cbn; [ reflexivity | ].
  rewrite H by now left. apply IH. intros x b' Hb. apply H. now right.
Qed.

Section Scan.

Variable S : Type.
Variable key : S -> Q.
Variable cand : Z -> option S.

(** The scan returns its initial record when no candidate beats it, and
    otherwise the first candidate of greatest key. *)
Lemma scan_spec (ops : list Z) :
  forall init : S,
    (fold_left (scan_step key cand) ops init = init
     /\ forall op c, In op ops -> cand op = Some c -> (key c <= key init)%Q)
    \/ exists l1 op l2 c,
         ops = l1 ++ op :: l2 /\ cand op = Some c
         /\ fold_left (scan_step key cand) ops init = c
         /\ (key init < key c)%Q
         /\ (forall op' c', In op' l1 -> cand op' = Some c' -> (key c' < key c)%Q)
         /\ (forall op' c', In op' l2 -> cand op' = Some c' -> (key c' <= key c)%Q).
Proof.
  induction ops as [ | op ops IH ]; intros init.
  - left. split; [ reflexivity | intros ? ? [] ].
  - cbn [fold_left].
    assert (Es : scan_step key cand init op
                 = match cand op with
                   | Some c => if Q_gt (key c) (key init) then c else init
                   | None => init
                   end) by reflexivity.
    destruct (cand op) as [ c | ] eqn:Ec.
    + destruct (Q_gt (key c) (key init)) eqn:Egt; rewrite Es; clear Es.
      * apply Q_gt_true in Egt.
        destruct (IH c)
          as [ [Er Hle]
             | (l1 & op2 & l2 & c2 & -> & Ec2 & Er & Hlt & H1 & H2) ].
        -- right. exists [], op, ops, c.
           split; [ reflexivity | ]. split; [ exact Ec | ].
           split; [ exact Er | ]. split; [ exact Egt | ].
           split; [ intros ? ? [] | exact Hle ].
        -- right. exists (op :: l1), op2, l2, c2.
           split; [ reflexivity | ]. split; [ exact Ec2 | ].
           split; [ exact Er | ].
           split; [ eapply Qlt_trans; eassumption | ].
           split; [ | exact H2 ].
           intros op' c' [ <- | Hin ] Hc'.
           ++ rewrite Ec in Hc'. injection Hc' as <-. exact Hlt.
           ++ eapply H1; eassumption.
      * apply Q_gt_false in Egt.
        destruct (IH init)
          as [ [Er Hle]
             | (l1 & op2 & l2 & c2 & -> & Ec2 & Er & Hlt & H1 & H2) ].
        -- left. split; [ exact Er | ].
           intros op' c' [ <- | Hin ] Hc'.
           ++ rewrite Ec in Hc'. injection Hc' as <-. exact Egt.
           ++ eapply Hle; eassumption.
        -- right. exists (op :: l1), op2, l2, c2.
           split; [ reflexivity | ]. split; [ exact Ec2 | ].
           split; [ exact Er | ]. split; [ exact Hlt | ].
           split; [ | exact H2 ].
           intros op' c' [ <- | Hin ] Hc'.
           ++ rewrite Ec in Hc'. injection Hc' as <-.
              eapply Qle_lt_trans; eassumption.
           ++ eapply H1; eassumption.
    + rewrite Es; clear Es.
      destruct (IH init)
        as [ [Er Hle]
           | (l1 & op2 & l2 & c2 & -> & Ec2 & Er & Hlt & H1 & H2) ].
      * left. split; [ exact Er | ].
        intros op' c' [ <- | Hin ] Hc'; [ congruence | eapply Hle; eassumption ].
      * right. exists (op :: l1), op2, l2, c2.
        split; [ reflexivity | ]. split; [ exact Ec2 | ].
        split; [ exact Er | ]. split; [ exact Hlt | ].
        split; [ | exact H2 ].
        intros op' c' [ <- | Hin ] Hc'; [ congruence | eapply H1; eassumption ].
Qed.

End Scan.

(** In [opcode], the directions before [op] are the smaller ones. *)
Lemma opcode_split (l1 l2 : list Z) (op : Z) :
  opcode = l1 ++ op :: l2 ->
  forall op', In op' opcode -> op' < op -> In op' l1.
Proof.
  unfold opcode. intros H op' Hin Hlt.
  destruct l1 as [ | a [ | b [ | c [ | d [ | e l ] ] ] ] ]; cbn in H;
    inversion H; subst; cbn in Hin |- *; intuition lia.
Qed.

Lemma opcode_split_in (l1 l2 : list Z) (op : Z) :
  opcode = l1 ++ op :: l2 -> In op opcode.
Proof. intros ->. apply in_elt. Qed.

Section Exact_properties.

Variable slide : board -> Z -> Z * board.
Variable net0 : network Q.

Lemma best_slide_is_scan (state : board) :
  best_slide slide net0 state
  = fold_left (scan_step pair_key (slide_cand slide net0 state)) opcode
              (-1, inject_Z (- FLT_MAX)).
Proof.
  unfold best_slide. apply fold_left_ext.
  intros best op _. unfold best_slide_step, scan_step, slide_cand.
  destruct (fst (slide state op) <? 0); reflexivity.
Qed.

Lemma take_action_search_is_scan (before : board) :
  take_action_search slide net0 before
  = fold_left (scan_step (@search_key Q exact) (search_cand slide net0 before))
              opcode search_init.
Proof.
  unfold take_action_search. apply fold_left_ext.
  intros best op _. unfold take_action_step, scan_step, search_cand.
  destruct (fst (slide before op) <? 0); reflexivity.
Qed.

Lemma slide_cand_legal (state : board) (op : Z) (c : Z * Q) :
  In op opcode -> slide_cand slide net0 state op = Some c ->
  legal slide state op
  /\ c = (fst (slide state op), estimate_value net0 (snd (slide state op))).
Proof.
  unfold slide_cand, legal. intros Hin H.
  destruct (Z.ltb_spec (fst (slide state op)) 0); [ discriminate | ].
  injection H as <-. auto.
Qed.

Lemma legal_slide_cand (state : board) (op : Z) :
  legal slide state op ->
  slide_cand slide net0 state op
  = Some (fst (slide state op), estimate_value net0 (snd (slide state op))).
Proof.
  unfold slide_cand, legal. intros [_ H].
  destruct (Z.ltb_spec (fst (slide state op)) 0); [ lia | reflexivity ].
Qed.

(** The inner loops of [expect_value] compute [best_estimate]. *)
Lemma best_slide_best_estimate (state : board) :
  best_estimate slide net0 state (snd (best_slide slide net0 state)).
Proof.
  rewrite best_slide_is_scan.
  destruct (scan_spec pair_key (slide_cand slide net0 state) opcode
                      (-1, inject_Z (- FLT_MAX)))
    as [ [Er Hle] | (l1 & op & l2 & c & Hsplit & Ec & Er & Hlt & H1 & H2) ];
    rewrite Er.
  - left. split; [ reflexivity | ].
    intros op Hl. specialize (Hle op _ (proj1 Hl) (legal_slide_cand Hl)).
    exact Hle.
  - right. exists op.
    assert (Hin : In op opcode) by (eapply opcode_split_in; eassumption).
    destruct (slide_cand_legal state Hin Ec) as [Hl ->].
    split; [ exact Hl | ]. split; [ reflexivity | ].
    split; [ exact Hlt | ].
    split.
    + intros op' Hl'.
      assert (Hc' := legal_slide_cand Hl').
      destruct Hl' as [Hin' _]. rewrite Hsplit in Hin'.
      apply in_app_or in Hin'. destruct Hin' as [ Hin' | [ <- | Hin' ] ].
      * apply Qlt_le_weak. exact (H1 op' _ Hin' Hc').
      * apply Qle_refl.
      * exact (H2 op' _ Hin' Hc').
    + intros op' Hl' Hlt'.
      assert (Hc' := legal_slide_cand Hl').
      exact (H1 op' _ (opcode_split _ _ Hsplit (proj1 Hl') Hlt') Hc').
Qed.

End Exact_properties.

(** ** The expected value of an afterstate *)

Section Expect_value_exact.

Variable slide : board -> Z -> Z * board.
Variable net0 : network Q.

Lemma best_estimate_unique (state : board) (bv bv' : Q) :
  best_estimate slide net0 state bv -> best_estimate slide net0 state bv' ->
  bv = bv'.
Proof.
  intros [ [-> Hle] | (op & Hl & -> & Hlt & Hmax & Hfirst) ]
         [ [-> Hle'] | (op' & Hl' & -> & Hlt' & Hmax' & Hfirst') ].
  - reflexivity.
  - exfalso. specialize (Hle op' Hl'). lra.
  - exfalso. specialize (Hle' op Hl). lra.
  - destruct (Z.lt_trichotomy op op') as [ H | [ -> | H ] ].
    + exfalso. specialize (Hfirst' op Hl H). specialize (Hmax op' Hl'). lra.
    + reflexivity.
    + exfalso. specialize (Hfirst op' Hl' H). specialize (Hmax' op Hl). lra.
Qed.

(** The running sum of [expect_value], two additions per empty cell, is
    the sum of the claim, one weighted term per empty cell. *)
Lemma expect_fold_weighted (after0 : board) (n : Z) (l : list nat) :
  forall v v' : Q,
    (v == v')%Q ->
    (fold_left (expect_step slide net0 after0 n) l v
     == fold_left
          (fun acc i =>
             acc + ((15099494 # 16777216)
                      * snd (best_slide slide net0 (set_tile after0 i 1))
                    + (13421773 # 134217728)
                      * snd (best_slide slide net0 (set_tile after0 i 2)))
                   / inject_Z n)
          l v')%Q.
Proof.
  induction l as [ | i l IH ]; intros v v' Hv; cbn [fold_left].
  - exact Hv.
  - apply IH. unfold expect_step. cbn [f_add f_div f_mul f_0_9 f_0_1 f_of_int exact].
    rewrite Hv. unfold Qdiv. ring.
Qed.

(** The idealised reading: in exact arithmetic, [expect_value(after)]
    is the sum over the empty cells of
    (0.9f * best1 + 0.1f * best2) / numEmptyCells, where, for the tile
    exponent t placed in the cell, best_t is the network's estimate of the
    board reached by the first direction whose reward + estimate is
    greatest among the legal directions, the reward itself not being
    added; best_t is the lowest float when no direction is legal (or none
    scores above the initial -1 + -FLT_MAX). *)
Theorem expect_value_weighted_estimates :
  forall after0 : board,
  exists best : Z -> nat -> Q,
    (forall t i,
        best_estimate slide net0 (set_tile after0 i t) (best t i)
        /\ forall bv, best_estimate slide net0 (set_tile after0 i t) bv ->
                      bv = best t i)
    /\ (expect_value slide net0 after0 == weighted_sum best after0)%Q.
Proof.
  intros after0.
  exists (fun t i => snd (best_slide slide net0 (set_tile after0 i t))).
  split.
  - intros t i.
    pose proof (best_slide_best_estimate slide net0 (set_tile after0 i t)) as Hb.
    split; [ exact Hb | ].
    intros bv Hbv. exact (best_estimate_unique Hbv Hb).
  - unfold expect_value, weighted_sum. apply expect_fold_weighted.
    reflexivity.
Qed.

End Expect_value_exact.

(** C1 fails as stated: on the board with one 2-tile in the corner and all
    weights zero, every best estimate is 0, so [expect_value] is 0, while
    the value of the claim counts the reward 4 of merging a placed 2-tile
    with the corner and is positive.  Under both arithmetics. *)
Lemma expect_value_omits_reward :
  expect_value (FO := binary32) slide_2048 init_weights corner_board
  = S754_zero false
  /\ expect_value_as_claimed (FO := binary32) slide_2048 init_weights corner_board
     = S754_finite false 12079595 (-23)
  /\ (expect_value (FO := exact) slide_2048 init_weights corner_board == 0)%Q
  /\ ~ (expect_value (FO := exact) slide_2048 init_weights corner_board
        == expect_value_as_claimed (FO := exact) slide_2048 init_weights corner_board)%Q.
Proof.
  split; [ vm_compute; reflexivity | ].
  split; [ vm_compute; reflexivity | ].
  split; [ vm_compute; reflexivity | ].
  vm_compute. discriminate.
Qed.

(** ** One adjustment *)

Lemma fold_left_Qplus (A : Type) (g : A -> Q) (l : list A) :
  forall v : Q, (fold_left (fun v x => v + g x) l v == v + sumQ (map g l))%Q.
Proof.
  induction l as [ | x l IH ]; intros v; cbn [fold_left map sumQ fold_right].
  - ring.
  - rewrite IH. unfold sumQ. ring.
Qed.

Lemma sumQ_shift (A : Type) (g g' : A -> Q) (d : Q) (l : list A) :
  (forall x, In x l -> g' x = (g x + d)%Q) ->
  (sumQ (map g' l) == sumQ (map g l) + inject_Z (Z.of_nat (length l)) * d)%Q.
Proof.
  induction l as [ | x l IH ]; intros H.
  - cbn. ring.
  - cbn [map sumQ fold_right length]. fold (sumQ (map g' l)). fold (sumQ (map g l)).
    rewrite IH by (intros y Hy; apply H; now right).
    rewrite (H x) by now left.
    rewrite Nat2Z.inj_succ, <- Z.add_1_r, inject_Z_plus. ring.
Qed.

Lemma selects_in (k : nat) (idx : Z) (l : list (nat * Z)) :
  In (k, idx) l -> selects k idx l = true.
Proof.
  unfold selects. intros H. apply existsb_exists. exists (k, idx).
  split; [ exact H | ]. cbn. now rewrite Nat.eqb_refl, Z.eqb_refl.
Qed.

Lemma estimate_value_sum (net0 : network Q) (b : board) :
  (estimate_value net0 b
   == sumQ (map (fun ki => net0 (fst ki) (snd ki)) (indexed_features b)))%Q.
Proof.
  unfold estimate_value. cbn [f_add f_zero exact].
  rewrite (fold_left_Qplus (fun ki => net0 (fst ki) (snd ki))). ring.
Qed.

(** In exact arithmetic one adjustment moves the estimate of the adjusted
    board by 32 times the scalar. *)
Lemma estimate_after_adjust (net0 : network Q) (a : Q) (b : board) (target : Z) :
  (estimate_value (adjust_value net0 a b target) b
   == estimate_value net0 b
      + 32 * (a * (inject_Z target - estimate_value net0 b)))%Q.
Proof.
  rewrite (estimate_value_sum (adjust_value net0 a b target)).
  rewrite (@sumQ_shift _ (fun ki => net0 (fst ki) (snd ki))
             (fun ki => adjust_value net0 a b target (fst ki) (snd ki))
             (a * (inject_Z target - estimate_value net0 b))%Q).
  - rewrite <- estimate_value_sum. reflexivity.
  - intros [k idx] Hin. cbn [fst snd]. unfold adjust_value.
    rewrite add_at_each_spec
      by (rewrite indexed_features_tables; apply seq_NoDup).
    rewrite (selects_in _ _ _ Hin). reflexivity.
Qed.

(** The idealised reading: in exact arithmetic, for a learning rate with
    0 < 32 alpha < 2 and a board whose estimate differs from the target, one
    [adjust_value] call strictly decreases |target - estimate(board)|.  The
    program computes in single precision, where an increment can be
    absorbed by rounding. *)
Theorem adjust_value_reduces_error :
  forall (net0 : network Q) (a : Q) (b : board) (target : Z),
    (0 < 32 * a)%Q -> (32 * a < 2)%Q ->
    ~ (estimate_value net0 b == inject_Z target)%Q ->
    (Qabs (inject_Z target - estimate_value (adjust_value net0 a b target) b)
     < Qabs (inject_Z target - estimate_value net0 b))%Q.
Proof.
  intros net0 a b target Hpos Hlt Hne.
  rewrite estimate_after_adjust.
  set (e := estimate_value net0 b) in *.
  set (t := inject_Z target) in *.
  assert (E : (t - (e + 32 * (a * (t - e))) == (t - e) * (1 - 32 * a))%Q) by ring.
  rewrite E, Qabs_Qmult.
  assert (Hc : (Qabs (1 - 32 * a) < 1)%Q) by (apply Qabs_Qlt_condition; lra).
  assert (Hd : (0 < Qabs (t - e))%Q).
  { destruct (Qlt_le_dec 0 (Qabs (t - e))) as [ H | H ]; [ exact H | ].
    exfalso. apply Hne. pose proof (Qabs_nonneg (t - e)) as Hnn.
    assert (E0 : (Qabs (t - e) == 0)%Q) by lra.
    revert E0. apply Qabs_case; intros; lra. }
  nra.
Qed.

(** ** Choosing the direction *)

Section Take_action_exact.

Variable slide : board -> Z -> Z * board.
Variable net0 : network Q.

(** [board::reward] is a C++ [int]. *)
Hypothesis reward_is_int : forall b op, fst (slide b op) < 2 ^ 31.

Lemma best_slide_lower (state : board) :
  (- value_bound <= snd (best_slide slide net0 state))%Q.
Proof.
  destruct (best_slide_best_estimate slide net0 state)
    as [ [-> _] | (op & Hl & -> & Hlt & _) ]; unfold value_bound.
  - change (inject_Z (- FLT_MAX)) with (- inject_Z FLT_MAX)%Q.
    change (inject_Z (2 ^ 31)) with (2147483648 # 1)%Q. lra.
  - unfold sentinel_value, slide_value in Hlt.
    assert (Hr : (inject_Z (fst (slide state op)) <= inject_Z (2 ^ 31 - 1))%Q).
    { rewrite <- Zle_Qle. specialize (reward_is_int state op). lia. }
    change (inject_Z (- FLT_MAX)) with (- inject_Z FLT_MAX)%Q in Hlt.
    change (inject_Z (-1)) with (- (1 # 1))%Q in Hlt.
    change (inject_Z (2 ^ 31 - 1)) with (2147483647 # 1)%Q in Hr.
    change (inject_Z (2 ^ 31)) with (2147483648 # 1)%Q.
    lra.
Qed.

Lemma expect_step_lower (after0 : board) (n : Z) (v : Q) (i : nat) :
  (0 < inject_Z n)%Q ->
  (v - expect_bound * / inject_Z n <= expect_step slide net0 after0 n v i)%Q.
Proof.
  intros Hn. unfold expect_step, expect_bound.
  cbn [f_add f_div f_mul f_0_9 f_0_1 f_of_int exact]. unfold Qdiv.
  pose proof (best_slide_lower (set_tile after0 i 1)) as H1.
  pose proof (best_slide_lower (set_tile after0 i 2)) as H2.
  pose proof (Qinv_lt_0_compat _ Hn) as Hu.
  set (u := (/ inject_Z n)%Q) in *.
  set (b1 := snd (best_slide slide net0 (set_tile after0 i 1))) in *.
  set (b2 := snd (best_slide slide net0 (set_tile after0 i 2))) in *.
  set (B := value_bound) in *.
  nra.
Qed.

Lemma expect_fold_lower (after0 : board) (n : Z) (l : list nat) :
  (0 < inject_Z n)%Q ->
  forall v : Q,
    (v - inject_Z (Z.of_nat (length l)) * (expect_bound * / inject_Z n)
     <= fold_left (expect_step slide net0 after0 n) l v)%Q.
Proof.
  intros Hn. induction l as [ | i l IH ]; intros v; cbn [fold_left length].
  - change (inject_Z (Z.of_nat 0)) with 0%Q. lra.
  - specialize (IH (expect_step slide net0 after0 n v i)).
    pose proof (expect_step_lower after0 v i Hn) as Hs.
    rewrite Nat2Z.inj_succ, <- Z.add_1_r, inject_Z_plus.
    change (inject_Z 1) with 1%Q.
    set (T := (expect_bound * / inject_Z n)%Q) in *.
    set (k := inject_Z (Z.of_nat (length l))) in *.
    lra.
Qed.

Lemma expect_bound_nonneg : (0 <= expect_bound)%Q.
Proof. vm_compute. discriminate. Qed.

Lemma expect_value_lower (after0 : board) :
  (- expect_bound <= expect_value slide net0 after0)%Q.
Proof.
  unfold expect_value.
  destruct (empty_tiles after0) as [ | i l ] eqn:El.
  - cbn [fold_left f_zero exact]. pose proof expect_bound_nonneg. lra.
  - set (n := Z.of_nat (length (i :: l))).
    assert (Hn : (0 < inject_Z n)%Q).
    { change 0%Q with (inject_Z 0). rewrite <- Zlt_Qlt. subst n. cbn [length]. lia. }
    pose proof (expect_fold_lower after0 (i :: l) Hn 0%Q) as H.
    cbn [f_zero exact]. fold n in H.
    assert (E : (inject_Z n * (expect_bound * / inject_Z n) == expect_bound)%Q)
      by (field; lra).
    lra.
Qed.

Lemma sentinel_below_expect_bound : (sentinel_value < - expect_bound)%Q.
Proof. vm_compute. reflexivity. Qed.

(** A legal direction always scores above the initial locals. *)
Lemma legal_move_above_sentinel (before : board) (op : Z) :
  legal slide before op ->
  (sentinel_value < move_value slide net0 before op)%Q.
Proof.
  intros [_ Hpos]. unfold move_value.
  pose proof (expect_value_lower (snd (slide before op))) as Hlow.
  pose proof sentinel_below_expect_bound as Hs.
  assert (Hr : (0 <= inject_Z (fst (slide before op)))%Q).
  { change 0%Q with (inject_Z 0). now rewrite <- Zle_Qle. }
  lra.
Qed.

Lemma legal_search_cand (before : board) (op : Z) :
  legal slide before op ->
  search_cand slide net0 before op = Some (search_of slide net0 before op).
Proof.
  unfold search_cand, legal. intros [_ H].
  destruct (Z.ltb_spec (fst (slide before op)) 0); [ lia | reflexivity ].
Qed.

Lemma search_cand_legal (before : board) (op : Z) (c : search Q) :
  In op opcode -> search_cand slide net0 before op = Some c ->
  legal slide before op /\ c = search_of slide net0 before op.
Proof.
  unfold search_cand, legal. intros Hin H.
  destruct (Z.ltb_spec (fst (slide before op)) 0); [ discriminate | ].
  injection H as <-. auto.
Qed.

Lemma take_action_search_best (before : board) :
  (exists op, legal slide before op) ->
  exists op,
    legal slide before op
    /\ take_action_search slide net0 before = search_of slide net0 before op
    /\ (forall op', legal slide before op' ->
                    (move_value slide net0 before op'
                     <= move_value slide net0 before op)%Q)
    /\ (forall op', legal slide before op' -> op' < op ->
                    (move_value slide net0 before op'
                     < move_value slide net0 before op)%Q).
Proof.
  intros (op0 & Hl0).
  rewrite take_action_search_is_scan.
  destruct (scan_spec (@search_key Q exact) (search_cand slide net0 before)
                      opcode search_init)
    as [ [_ Hle] | (l1 & op & l2 & c & Hsplit & Ec & Er & _ & H1 & H2) ].
  - exfalso.
    specialize (Hle op0 _ (proj1 Hl0) (legal_search_cand Hl0)).
    pose proof (legal_move_above_sentinel Hl0) as Habove.
    change (search_key (search_of slide net0 before op0))
      with (move_value slide net0 before op0) in Hle.
    change (search_key (FO := exact) search_init) with sentinel_value in Hle.
    lra.
  - exists op.
    assert (Hin : In op opcode) by (eapply opcode_split_in; eassumption).
    destruct (search_cand_legal before Hin Ec) as [Hl ->].
    split; [ exact Hl | ]. split; [ exact Er | ].
    split.
    + intros op' Hl'.
      assert (Hc' := legal_search_cand Hl').
      destruct Hl' as [Hin' _]. rewrite Hsplit in Hin'.
      apply in_app_or in Hin'. destruct Hin' as [ Hin' | [ <- | Hin' ] ].
      * apply Qlt_le_weak. exact (H1 op' _ Hin' Hc').
      * apply Qle_refl.
      * exact (H2 op' _ Hin' Hc').
    + intros op' Hl' Hlt'.
      assert (Hc' := legal_search_cand Hl').
      exact (H1 op' _ (opcode_split _ _ Hsplit (proj1 Hl') Hlt') Hc').
Qed.

End Take_action_exact.

(** The idealised reading: in exact arithmetic, with 32-bit rewards, on a
    board with at least one legal direction, [take_action] returns the slide
    action of a legal direction whose reward + expect_value(afterstate) is
    greatest among the legal directions and strictly greater than that of
    every legal direction before it in the order 0, 1, 2, 3; and it appends
    exactly one step to the history, holding that direction's reward and
    afterstate.  The program computes in single precision, where a legal
    direction can fail to score above the initial locals. *)
Theorem take_action_best_direction :
  forall (slide : board -> Z -> Z * board) (st : TD_player Q) (before : board),
    (forall b op, fst (slide b op) < 2 ^ 31) ->
    (exists op, legal slide before op) ->
    exists op,
      legal slide before op
      /\ take_action slide st before
         = (action_slide op, push_back st (step_of slide before op))
      /\ history (snd (take_action slide st before))
         = history st ++ [ step_of slide before op ]
      /\ (forall op', legal slide before op' ->
                      (move_value slide (net st) before op'
                       <= move_value slide (net st) before op)%Q)
      /\ (forall op', legal slide before op' -> op' < op ->
                      (move_value slide (net st) before op'
                       < move_value slide (net st) before op)%Q).
Proof.
  intros slide st before Hint Hex.
  destruct (take_action_search_best (net st) Hint Hex)
    as (op & Hl & Es & Hmax & Hfirst).
  exists op. split; [ exact Hl | ].
  assert (E : take_action slide st before
              = (action_slide op, push_back st (step_of slide before op))).
  { unfold take_action. rewrite Es.
    unfold search_of, step_of. cbn [best_op best_reward best_after].
    destruct (Z.eqb_spec op (-1)) as [Heq | Hne]; [ | reflexivity ].
    now elim (legal_not_sentinel Hl). }
  split; [ exact E | ]. split; [ now rewrite E | ].
  split; assumption.
Qed.

(** ** Closing the episode *)

Lemma fold_left_Zadd (l : list Z) (a : Z) :
  fold_left Z.add l a = a + fold_left Z.add l 0.
Proof.
  revert a. induction l as [ | x l IH ]; intros a; cbn [fold_left].
  - lia.
  - rewrite (IH (a + x)), (IH (0 + x)). lia.
Qed.

Lemma skipn_nth_cons (A : Type) (d : A) (l : list A) (k : nat) :
  (k < length l)%nat -> skipn k l = nth k l d :: skipn (S k) l.
Proof.
  revert k. induction l as [ | x l IH ]; intros k Hk; cbn [length] in Hk.
  - lia.
  - destruct k as [ | k ]; [ reflexivity | ].
    cbn [skipn nth]. apply IH. lia.
Qed.

(** The reward loop with its [break] sums the rewards of the steps
    i+j .. i+j+iters-1 that exist. *)
Lemma reward_loop_sum (history0 : list step) (i iters : nat) :
  forall (j : nat) (total : Z),
    reward_loop history0 i j iters total
    = total + fold_left Z.add
                (map reward (firstn iters (skipn (i + j) history0))) 0.
Proof.
  induction iters as [ | iters IH ]; intros j total; cbn [reward_loop].
  - cbn. lia.
  - destruct (Nat.leb_spec (length history0) (i + j)) as [Hout | Hin].
    + rewrite skipn_all2 by exact Hout. cbn. lia.
    + rewrite IH.
      rewrite (skipn_nth_cons no_step history0 Hin).
      cbn [firstn map fold_left].
      replace (i + S j)%nat with (S (i + j)) by lia.
      rewrite (fold_left_Zadd _ (0 + _)). lia.
Qed.

Section Close_episode_properties.

Context {F : Type} {FO : FloatOps F}.

Lemma close_step_target (a : F) (n : Z) (history0 : list step)
    (net0 : network F) (i : nat) :
  0 <= n ->
  close_step a n history0 net0 i
  = adjust_value net0 a (after (nth i history0 no_step))
                 (truncated_target net0 history0 i n).
Proof.
  intros Hn. unfold close_step, truncated_target.
  rewrite reward_loop_sum.
  replace (i + 1)%nat with (S i) by lia.
  fold (n_step_rewards history0 i n).
  replace (Z.to_nat (Z.of_nat i + n)) with (i + Z.to_nat n)%nat by lia.
  destruct (Z.geb_spec (Z.of_nat i + n) (Z.of_nat (length history0)))
    as [Hge | Hlt].
  - assert (E : nth_error history0 (i + Z.to_nat n) = None)
      by (apply nth_error_None; lia).
    now rewrite E.
  - destruct (nth_error history0 (i + Z.to_nat n)) as [ s | ] eqn:E.
    + now rewrite (nth_error_nth _ _ no_step E).
    + apply nth_error_None in E. lia.
Qed.

(** What [close_episode] does on a non-empty history with a nonzero
    learning rate: the last afterstate is adjusted toward 0, then the
    steps before it, from the latest to the earliest, each toward its
    n-step return computed with the weights of that moment and converted
    to [int]. *)
Lemma close_episode_targets (st : TD_player F) :
  history st <> [] -> f_eq (alpha st) (f_of_int 0) = false -> 1 <= n_step st ->
  net (close_episode st)
  = fold_left
      (fun net0 i =>
         adjust_value net0 (alpha st) (after (nth i (history st) no_step))
                      (truncated_target net0 (history st) i (n_step st)))
      (rev (seq 0 (length (history st) - 1)))
      (adjust_value (net st) (alpha st)
                    (after (last (history st) no_step)) 0).
Proof.
  intros Hne Ha Hn. unfold close_episode.
  destruct (history st) as [ | s h ] eqn:Eh; [ congruence | ].
  cbn [length Nat.eqb]. rewrite Ha. cbn [with_net net].
  apply fold_left_ext. intros net0 i _.
  apply close_step_target. lia.
Qed.

End Close_episode_properties.

(** C2 fails on the code: the bootstrapped target is truncated.  For the
    two-step episode [episode2] the estimate of the last afterstate is 1/4
    after its own adjustment, so step 0 should be adjusted toward
    4 + 1/4; the code adjusts it toward 4, and the weight [net[0][31]] ends
    at 571/1024 instead of 575/1024.  Under both arithmetics. *)
Lemma close_episode_truncates_target :
  truncated_target (FO := binary32)
    (adjust_value (net player2) (alpha player2)
                  (after (last episode2 no_step)) 0) episode2 0 1 = 4
  /\ n_step_target (FO := binary32)
       (adjust_value (net player2) (alpha player2)
                     (after (last episode2 no_step)) 0) episode2 0 1
     = S754_finite false 8912896 (-21)
  /\ net (close_episode (player2 (FO := binary32))) 0%nat 31
     = S754_finite false 9355264 (-24)
  /\ close_episode_as_claimed (FO := binary32)
       (alpha player2) 1 episode2 (net player2) 0%nat 31
     = S754_finite false 9420800 (-24)
  /\ (net (close_episode (player2 (FO := exact))) 0%nat 31%Z == 571 # 1024)%Q
  /\ (close_episode_as_claimed (FO := exact)
        (alpha player2) 1%Z episode2 (net player2) 0%nat 31%Z == 575 # 1024)%Q.
Proof.
  repeat split; vm_compute; reflexivity.
Qed.

(** ** The earlier revision *)

(** X24.  [src/agent.h]: with no legal direction the earlier [take_action] also
    returns [action::slide(-1)] and records nothing. *)
Lemma agent_h_take_action_no_legal_direction
    (F : Type) (FO : FloatOps F) (slide : board -> Z -> Z * board)
    (st : TD_player F) (before : board) :
  (forall op, In op opcode -> fst (slide before op) = -1) ->
  Agent_h.take_action slide st before = (action_slide (-1), st).
Proof.
  intros Hill. unfold Agent_h.take_action.
  assert (E : fold_left (Agent_h.take_action_step slide (net st) before) opcode
                        Agent_h.search_init
              = Agent_h.search_init).
  { apply (fold_left_invariant (fun s => s = Agent_h.search_init));
      [ reflexivity | ].
    intros s op Hin ->. unfold Agent_h.take_action_step.
    rewrite (Hill op Hin). reflexivity. }
  rewrite E. reflexivity.
Qed.

(** X23.  [src/agent.h]: the base-25 index determines the five cells when they
    are below 25. *)
Lemma agent_h_extract_feature_injective (b1 b2 : board) (p1 p2 p3 p4 p5 : nat) :
  Forall (fun i => 0 <= cell_at b1 i < 25) [p1; p2; p3; p4; p5] ->
  Forall (fun i => 0 <= cell_at b2 i < 25) [p1; p2; p3; p4; p5] ->
  Agent_h.extract_feature b1 p1 p2 p3 p4 p5
  = Agent_h.extract_feature b2 p1 p2 p3 p4 p5 ->
  map (cell_at b1) [p1; p2; p3; p4; p5] = map (cell_at b2) [p1; p2; p3; p4; p5].
Proof.
  rewrite !Forall_forall. intros H1 H2.
  assert (A1 := H1 p1 ltac:(simpl; tauto)). assert (A2 := H1 p2 ltac:(simpl; tauto)).
  assert (A3 := H1 p3 ltac:(simpl; tauto)). assert (A4 := H1 p4 ltac:(simpl; tauto)).
  assert (A5 := H1 p5 ltac:(simpl; tauto)).
  assert (B1 := H2 p1 ltac:(simpl; tauto)). assert (B2 := H2 p2 ltac:(simpl; tauto)).
  assert (B3 := H2 p3 ltac:(simpl; tauto)). assert (B4 := H2 p4 ltac:(simpl; tauto)).
  assert (B5 := H2 p5 ltac:(simpl; tauto)).
  cbv beta in *. unfold Agent_h.extract_feature. cbn [map]. intros E.
  assert (cell_at b1 p1 = cell_at b2 p1) by lia.
  assert (cell_at b1 p2 = cell_at b2 p2) by lia.
  assert (cell_at b1 p3 = cell_at b2 p3) by lia.
  assert (cell_at b1 p4 = cell_at b2 p4) by lia.
  assert (cell_at b1 p5 = cell_at b2 p5) by lia.
  congruence.
Qed.

(** [src/agent.h]: the one-step [close_episode] passes its float target
    through the same [int target] parameter.  On [player2] the target of
    step 0 is 4 + 5/16; the code adjusts toward 4 and [net[0][25]] ends at
    2281/4096 (it would be 2301/4096 for the untruncated target). *)
Lemma agent_h_close_episode_truncates :
  (f_add (f_of_int 4)
         (Agent_h.estimate_value (FO := exact)
            (Agent_h.adjust_value (net player2) (alpha player2)
                                  (after (last episode2 no_step)) 0)
            (after (last episode2 no_step))) == 69 # 16)%Q
  /\ (net (Agent_h.close_episode (player2 (FO := exact))) 0%nat 25%Z
      == 2281 # 4096)%Q
  /\ net (Agent_h.close_episode (player2 (FO := binary32))) 0%nat 25
     = S754_finite false 9342976 (-24).
Proof.
  repeat split; vm_compute; reflexivity.
Qed.

(** ** The modelled move engine *)

Lemma to_int_range (z : Z) : - 2 ^ 31 <= to_int z < 2 ^ 31.
Proof.
  unfold to_int.
  pose proof (Z.mod_pos_bound (z + 2 ^ 31) (2 ^ 32) ltac:(lia)). lia.
Qed.

Lemma slide_2048_reward_int (b : board) (op : Z) :
  fst (slide_2048 b op) < 2 ^ 31.
Proof.
  unfold slide_2048.
  destruct (match op with
            | 0 => Some (slide_up b)
            | 1 => Some (slide_right b)
            | 2 => Some (slide_down b)
            | 3 => Some (slide_left b)
            | _ => None
            end) as [ [b' r] | ]; [ | cbn; lia ].
  destruct (board_eqb b' b); cbn [fst]; [ lia | apply to_int_range ].
Qed.

Lemma stuck_board_illegal (op : Z) :
  In op opcode -> fst (slide_2048 stuck_board op) = -1.
Proof.
  unfold opcode. cbn [In].
  intros [ <- | [ <- | [ <- | [ <- | [] ] ] ] ]; vm_compute; reflexivity.
Qed.

Lemma corner_board_legal : legal slide_2048 corner_board 1.
Proof.
  split; [ unfold opcode; cbn [In]; tauto | vm_compute; discriminate ].
Qed.

(** ** The statements at concrete inputs *)

(** The lemma on the stuck board. *)
Lemma take_action_no_legal_direction_witness :
  (forall op, In op opcode -> fst (slide_2048 stuck_board op) = -1)
  /\ take_action (FO := binary32) slide_2048 (player0 f_zero 1 episode2) stuck_board
     = (action_slide (-1), player0 f_zero 1 episode2).
Proof.
  split; [ exact stuck_board_illegal | ].
  apply (@take_action_no_legal_direction _ _ slide_2048
           (player0 (FO := binary32) f_zero 1 episode2) stuck_board).
  exact stuck_board_illegal.
Defined.

(** The statement of C5 on an agent with learning rate 0, and on one with
    an empty history. *)
Lemma close_episode_noop_witness :
  f_eq (alpha (player0 (FO := binary32) f_zero 1 episode2)) (f_of_int 0) = true
  /\ close_episode (player0 (FO := binary32) f_zero 1 episode2)
     = player0 f_zero 1 episode2
  /\ close_episode (player0 (FO := binary32) f_0_1 1 [])
     = player0 f_0_1 1 [].
Proof.
  split; [ reflexivity | ]. split.
  - apply (@close_episode_noop _ _ (player0 (FO := binary32) f_zero 1 episode2)).
    right. reflexivity.
  - apply (@close_episode_noop _ _ (player0 (FO := binary32) f_0_1 1 [])).
    left. reflexivity.
Defined.

(** The statement of C9 after one move of a new agent on the corner board. *)
Lemma history_rewards_nonneg_witness :
  reachable slide_2048
    (snd (take_action (FO := binary32) slide_2048 (player0 f_zero 1 [])
                      corner_board))
  /\ rewards_nonneg
       (history (snd (take_action (FO := binary32) slide_2048
                                  (player0 f_zero 1 []) corner_board))).
Proof.
  assert (H : reachable slide_2048
                (snd (take_action (FO := binary32) slide_2048
                                  (player0 f_zero 1 []) corner_board))).
  { apply reach_take. apply reach_new. reflexivity. }
  split; [ exact H | ].
  exact (proj1 (@history_rewards_nonneg _ _ slide_2048 _ corner_board H)).
Defined.

(** The statement of C8 on the corner board, for the reversed order and
    the draw 0. *)
Lemma rndenv_take_action_spec_witness :
  Permutation (seq 0 16) (space rndenv_init)
  /\ Permutation (space rndenv_init) (rev (seq 0 16))
  /\ exists pos tile,
       fst (rndenv_take_action (rev (seq 0 16)) 0 rndenv_init corner_board)
       = action_place pos tile
       /\ (pos < 16)%nat /\ cell_at corner_board pos = 0 /\ (tile = 1 \/ tile = 2).
Proof.
  assert (H1 : Permutation (seq 0 16) (space rndenv_init))
    by apply Permutation_refl.
  assert (H2 : Permutation (space rndenv_init) (rev (seq 0 16)))
    by apply Permutation_rev.
  split; [ exact H1 | ]. split; [ exact H2 | ].
  apply (proj1 (proj2 (@rndenv_take_action_spec rndenv_init (rev (seq 0 16)) 0
                         corner_board H1 H2))).
  exists 1%nat. split; [ lia | reflexivity ].
Defined.

(** The idealised reading for zero weights, target 4 and learning rate
    1/64. *)
Lemma adjust_value_reduces_error_witness :
  (0 < 32 * (1 # 64))%Q /\ (32 * (1 # 64) < 2)%Q
  /\ ~ (estimate_value (FO := exact) init_weights corner_board == inject_Z 4)%Q
  /\ (Qabs (inject_Z 4
            - estimate_value (adjust_value init_weights (1 # 64) corner_board 4)
                             corner_board)
      < Qabs (inject_Z 4 - estimate_value (FO := exact) init_weights corner_board))%Q.
Proof.
  assert (H1 : (0 < 32 * (1 # 64))%Q) by reflexivity.
  assert (H2 : (32 * (1 # 64) < 2)%Q) by reflexivity.
  assert (H3 : ~ (estimate_value (FO := exact) init_weights corner_board
                  == inject_Z 4)%Q) by (vm_compute; discriminate).
  split; [ exact H1 | ]. split; [ exact H2 | ]. split; [ exact H3 | ].
  exact (@adjust_value_reduces_error init_weights (1 # 64) corner_board 4
           H1 H2 H3).
Defined.

(** The idealised reading on the corner board, for the modelled move
    engine. *)
Lemma take_action_best_direction_witness :
  (exists op, legal slide_2048 corner_board op)
  /\ exists op,
       legal slide_2048 corner_board op
       /\ take_action slide_2048 (player0 (FO := exact) 0%Q 1 []) corner_board
          = (action_slide op,
             push_back (player0 0%Q 1 []) (step_of slide_2048 corner_board op)).
Proof.
  assert (H : exists op, legal slide_2048 corner_board op)
    by (exists 1; exact corner_board_legal).
  split; [ exact H | ].
  destruct (@take_action_best_direction slide_2048
              (player0 (FO := exact) 0%Q 1 []) corner_board
              slide_2048_reward_int H) as (op & Hl & E & _).
  exists op. split; [ exact Hl | exact E ].
Defined.

(** * Further properties

    Properties of the code around the claims: the configuration of an
    agent, the dummy player, and more on the weights, the episode and the
    earlier revision. *)

(** ** agent: the key/value configuration *)

Lemma tokens_from_space (a b : string) (c : ascii) :
  isspace c = true ->
  forall tok,
    tokens_from (a ++ String c b) tok
    = tokens_from (a ++ String c EmptyString) tok ++ tokens_from b EmptyString.
Proof.
  intros Hc. induction a as [ | x a IH ]; intros tok; cbn [append tokens_from].
  - rewrite Hc. destruct tok; reflexivity.
  - destruct (isspace x).
    + destruct tok; [ apply IH | cbn [app]; f_equal; apply IH ].
    + apply IH.
Qed.

Lemma meta_find_set (key key' value : string) (m : meta_map) :
  meta_find key (meta_set key' value m)
  = if String.eqb key' key then Some value else meta_find key m.
Proof.
  induction m as [ | [k v] m IH ]; cbn [meta_set meta_find].
  - destruct (String.eqb_spec key' key); reflexivity.
  - destruct (String.eqb_spec k key') as [ -> | Hne ]; cbn [meta_find].
    + destruct (String.eqb_spec key' key); reflexivity.
    + destruct (String.eqb_spec k key) as [ -> | Hne' ].
      * destruct (String.eqb_spec key' key); [ congruence | reflexivity ].
      * exact IH.
Qed.

Lemma meta_find_inserts (key : string) (l : list string) :
  forall m,
    meta_find key (fold_left agent_insert l m)
    = fold_left (last_value_step key) l (meta_find key m).
Proof.
  induction l as [ | pair l IH ]; intros m; cbn [fold_left]; [ reflexivity | ].
  rewrite IH. unfold agent_insert at 1. rewrite meta_find_set. reflexivity.
Qed.

Lemma last_value_acc (key : string) (l : list string) :
  forall acc,
    fold_left (last_value_step key) l acc
    = match fold_left (last_value_step key) l None with
      | Some v => Some v
      | None => acc
      end.
Proof.
  induction l as [ | pair l IH ]; intros acc; cbn [fold_left]; [ reflexivity | ].
  rewrite IH. rewrite (IH (last_value_step key None pair)).
  destruct (fold_left (last_value_step key) l None); [ reflexivity | ].
  unfold last_value_step. destruct (String.eqb (token_key pair) key); reflexivity.
Qed.

(** The bindings after construction from [pre ++ " " ++ args]: the last
    token of [args] with the key, else the last one of the prefix. *)
Lemma agent_prefix_find (pre args key : string) :
  meta_find key
    (fold_left agent_insert (tokens (pre ++ String " " args)) [])
  = match last_value key (tokens args) with
    | Some v => Some v
    | None => last_value key (tokens (pre ++ String " " EmptyString))
    end.
Proof.
  unfold tokens. rewrite tokens_from_space by reflexivity.
  rewrite fold_left_app, meta_find_inserts.
  rewrite last_value_acc.
  rewrite meta_find_inserts. reflexivity.
Qed.

Lemma agent_new_find (args key : string) :
  property (agent_new args) key
  = match last_value key (tokens args) with
    | Some v => Some v
    | None => class_default "unknown" "unknown" key
    end.
Proof.
  unfold property, agent_new. cbn [meta].
  change ("name=unknown role=unknown " ++ args)%string
    with ("name=unknown role=unknown" ++ String " " args)%string.
  rewrite agent_prefix_find.
  destruct (last_value key (tokens args)); [ reflexivity | ].
  unfold class_default. cbv -[String.eqb].
  destruct (String.eqb "role" key); destruct (String.eqb "name" key); reflexivity.
Qed.

Lemma derived_agent_find (pre nm rl args key : string) :
  (forall k, last_value k (tokens (pre ++ String " " EmptyString))
             = class_default nm rl k) ->
  meta_find key (fold_left agent_insert (tokens (pre ++ String " " args)) [])
  = match last_value key (tokens args) with
    | Some v => Some v
    | None => class_default nm rl key
    end.
Proof.
  intros H. rewrite agent_prefix_find, H. reflexivity.
Qed.

Lemma name_is_not_role : "name"%string <> "role"%string.
Proof. discriminate. Qed.

Ltac class_defaults :=
  intros; unfold class_default;
  match goal with
  | |- last_value ?k ?l = _ =>
      let v := eval vm_compute in l in change l with v;
      unfold last_value; cbn [fold_left]; unfold last_value_step
  end;
  repeat match goal with
         | |- context [ token_key ?t ] =>
             let v := eval vm_compute in (token_key t) in
             change (token_key t) with v
         | |- context [ token_value ?t ] =>
             let v := eval vm_compute in (token_value t) in
             change (token_value t) with v
         end;
  match goal with
  | |- context [ String.eqb "name" ?k ] =>
      destruct (String.eqb_spec "name" k) as [ E1 | ? ];
      destruct (String.eqb_spec "role" k) as [ E2 | ? ];
      try reflexivity;
      exfalso; apply name_is_not_role; rewrite E1, E2; reflexivity
  end.

Lemma rndenv_agent_find (args key : string) :
  property (rndenv_agent args) key
  = match last_value key (tokens args) with
    | Some v => Some v
    | None => class_default "random" "environment" key
    end.
Proof.
  apply (@derived_agent_find
           "name=unknown role=unknown name=random role=environment").
  class_defaults.
Qed.

Lemma player_agent_find (args key : string) :
  property (player_agent args) key
  = match last_value key (tokens args) with
    | Some v => Some v
    | None => class_default "dummy" "player" key
    end.
Proof.
  apply (@derived_agent_find "name=unknown role=unknown name=dummy role=player").
  class_defaults.
Qed.

Lemma TD_player_agent_find (args key : string) :
  property (TD_player_agent args) key
  = match last_value key (tokens args) with
    | Some v => Some v
    | None => class_default "TD" "player" key
    end.
Proof.
  apply (@derived_agent_find "name=unknown role=unknown name=TD role=player").
  class_defaults.
Qed.

(** X1.  After construction a key is bound to the value of the last token of
    the arguments that carries it; a key the arguments do not mention is
    bound to the class default if it is "name" or "role" and is missing
    otherwise.  So arguments override the defaults, the role included. *)
Theorem constructed_property_last_token :
  forall (args key : string),
    let given d := match last_value key (tokens args) with
                   | Some v => Some v
                   | None => d
                   end in
    property (agent_new args) key = given (class_default "unknown" "unknown" key)
    /\ property (rndenv_agent args) key
       = given (class_default "random" "environment" key)
    /\ property (player_agent args) key = given (class_default "dummy" "player" key)
    /\ property (TD_player_agent args) key = given (class_default "TD" "player" key).
Proof.
  intros args key given. subst given. cbv beta.
  repeat split.
  - apply agent_new_find.
  - apply rndenv_agent_find.
  - apply player_agent_find.
  - apply TD_player_agent_find.
Qed.

Lemma given_default_defined (o : option string) (nm rl key : string) :
  key = "name"%string \/ key = "role"%string ->
  match o with Some v => Some v | None => class_default nm rl key end <> None.
Proof.
  intros [ -> | -> ]; destruct o; cbn; discriminate.
Qed.

(** X2.  [name()] and [role()] never meet a missing key: whatever the
    arguments, both are bound after construction, in the base class and in
    the three derived ones. *)
Theorem name_role_always_bound :
  forall args : string,
    name (agent_new args) <> None /\ role (agent_new args) <> None
    /\ name (rndenv_agent args) <> None /\ role (rndenv_agent args) <> None
    /\ name (player_agent args) <> None /\ role (player_agent args) <> None
    /\ name (TD_player_agent args) <> None /\ role (TD_player_agent args) <> None.
Proof.
  intros args. unfold name, role.
  rewrite (agent_new_find args "name"), (agent_new_find args "role").
  rewrite (rndenv_agent_find args "name"), (rndenv_agent_find args "role").
  rewrite (player_agent_find args "name"), (player_agent_find args "role").
  rewrite (TD_player_agent_find args "name"), (TD_player_agent_find args "role").
  repeat split; apply given_default_defined; auto.
Qed.

(** *** notify *)

Lemma find_char_app (c : ascii) (k v : string) :
  find_char c k = None ->
  find_char c (k ++ String c v) = Some (String.length k).
Proof.
  induction k as [ | x k IH ]; cbn [append find_char String.length].
  - now rewrite Ascii.eqb_refl.
  - destruct (Ascii.eqb x c); [ discriminate | ].
    destruct (find_char c k); [ discriminate | ].
    intros _. now rewrite IH.
Qed.

Lemma str_take_app (k s : string) : str_take (String.length k) (k ++ s) = k.
Proof.
  induction k as [ | x k IH ]; cbn [append str_take String.length].
  - now destruct s.
  - now rewrite IH.
Qed.

Lemma str_drop_app (k s : string) (c : ascii) :
  str_drop (String.length k + 1) (k ++ String c s) = s.
Proof.
  induction k as [ | x k IH ]; cbn [append str_drop String.length Nat.add].
  - now destruct s.
  - exact IH.
Qed.

Lemma token_split (k v : string) :
  find_char "="%char k = None ->
  token_key (k ++ String "=" v) = k /\ token_value (k ++ String "=" v) = v.
Proof.
  intros H. unfold token_key, token_value.
  rewrite (@find_char_app "="%char k v H). split; [ apply str_take_app | apply str_drop_app ].
Qed.

Lemma token_no_equals (t : string) :
  find_char "="%char t = None -> token_key t = t /\ token_value t = t.
Proof.
  intros H. unfold token_key, token_value. rewrite H. now destruct t.
Qed.

(** X3.  [notify("k=v")] binds [k] to [v], everything after the first '='
    being the value, and leaves every other key as it was; a message without
    '=' is bound to itself. *)
Theorem notify_property :
  forall (a : agent) (k v key : string),
    find_char "="%char k = None ->
    property (notify a (k ++ String "=" v)) key
    = (if String.eqb k key then Some v else property a key)
    /\ property (notify a k) key
       = (if String.eqb k key then Some k else property a key).
Proof.
  intros a k v key H. unfold property, notify, agent_insert. cbn [meta].
  rewrite !meta_find_set.
  destruct (@token_split k v H) as [-> ->].
  destruct (@token_no_equals k H) as [-> ->].
  split; reflexivity.
Qed.

(** The statement of X3 on a TD player given "alpha=0.1", notified of
    "alpha=0.5=x" and of "alpha". *)
Lemma notify_property_witness :
  find_char "="%char "alpha" = None
  /\ property (notify (TD_player_agent "alpha=0.1") "alpha=0.5=x") "alpha"
     = Some "0.5=x"%string
  /\ property (notify (TD_player_agent "alpha=0.1") "alpha") "alpha"
     = Some "alpha"%string.
Proof.
  assert (H : find_char "="%char "alpha" = None) by reflexivity.
  split; [ exact H | ].
  destruct (@notify_property (TD_player_agent "alpha=0.1") "alpha" "0.5=x" "alpha" H)
    as [E1 E2].
  split; [ exact E1 | exact E2 ].
Defined.

(** ** player: the dummy player *)

Section ZScan.

Variables A S : Type.
Variable key : S -> Z.
Variable cand : A -> option S.

Lemma zscan_spec (l : list A) :
  forall init : S,
    (fold_left (zscan_step key cand) l init = init
     /\ forall x c, In x l -> cand x = Some c -> key c <= key init)
    \/ exists l1 x l2 c,
         l = l1 ++ x :: l2 /\ cand x = Some c
         /\ fold_left (zscan_step key cand) l init = c
         /\ key init < key c
         /\ (forall x' c', In x' l1 -> cand x' = Some c' -> key c' < key c)
         /\ (forall x' c', In x' l2 -> cand x' = Some c' -> key c' <= key c).
Proof.
  induction l as [ | x l IH ]; intros init.
  - left. split; [ reflexivity | intros ? ? [] ].
  - cbn [fold_left].
    assert (Es : zscan_step key cand init x
                 = match cand x with
                   | Some c => if key c >? key init then c else init
                   | None => init
                   end) by reflexivity.
    destruct (cand x) as [ c | ] eqn:Ec.
    + destruct (Z.gtb_spec (key c) (key init)) as [Hgt | Hle]; rewrite Es; clear Es.
      * destruct (IH c)
          as [ [Er Hall]
             | (l1 & x2 & l2 & c2 & -> & Ec2 & Er & Hlt & H1 & H2) ].
        -- right. exists [], x, l, c.
           split; [ reflexivity | ]. split; [ exact Ec | ].
           split; [ exact Er | ]. split; [ lia | ].
           split; [ intros ? ? [] | exact Hall ].
        -- right. exists (x :: l1), x2, l2, c2.
           split; [ reflexivity | ]. split; [ exact Ec2 | ].
           split; [ exact Er | ]. split; [ lia | ].
           split; [ | exact H2 ].
           intros x' c' [ <- | Hin ] Hc'.
           ++ rewrite Ec in Hc'. injection Hc' as <-. exact Hlt.
           ++ eapply H1; eassumption.
      * destruct (IH init)
          as [ [Er Hall]
             | (l1 & x2 & l2 & c2 & -> & Ec2 & Er & Hlt & H1 & H2) ].
        -- left. split; [ exact Er | ].
           intros x' c' [ <- | Hin ] Hc'.
           ++ rewrite Ec in Hc'. injection Hc' as <-. exact Hle.
           ++ eapply Hall; eassumption.
        -- right. exists (x :: l1), x2, l2, c2.
           split; [ reflexivity | ]. split; [ exact Ec2 | ].
           split; [ exact Er | ]. split; [ exact Hlt | ].
           split; [ | exact H2 ].
           intros x' c' [ <- | Hin ] Hc'.
           ++ rewrite Ec in Hc'. injection Hc' as <-. lia.
           ++ eapply H1; eassumption.
    + rewrite Es; clear Es.
      destruct (IH init)
        as [ [Er Hall]
           | (l1 & x2 & l2 & c2 & -> & Ec2 & Er & Hlt & H1 & H2) ].
      * left. split; [ exact Er | ].
        intros x' c' [ <- | Hin ] Hc'; [ congruence | eapply Hall; eassumption ].
      * right. exists (x :: l1), x2, l2, c2.
        split; [ reflexivity | ]. split; [ exact Ec2 | ].
        split; [ exact Er | ]. split; [ exact Hlt | ].
        split; [ | exact H2 ].
        intros x' c' [ <- | Hin ] Hc'; [ congruence | eapply H1; eassumption ].
Qed.

End ZScan.

Lemma fold_left_flat_map (A B C : Type) (f : A -> C -> A) (g : B -> list C)
    (l : list B) :
  forall a, fold_left f (flat_map g l) a
            = fold_left (fun a x => fold_left f (g x) a) l a.
Proof.
  induction l as [ | x l IH ]; intros a; cbn [flat_map fold_left].
  - reflexivity.
  - rewrite fold_left_app. apply IH.
Qed.

Lemma fold_left_map (A B C : Type) (f : A -> C -> A) (h : B -> C) (l : list B) :
  forall a, fold_left f (map h l) a = fold_left (fun a x => f a (h x)) l a.
Proof.
  induction l as [ | x l IH ]; intros a; cbn [map fold_left];
    [ reflexivity | apply IH ].
Qed.

Lemma sorted_after (A : Type) (R : A -> A -> Prop) (l1 l2 : list A) (p : A) :
  StronglySorted R (l1 ++ p :: l2) -> forall q, In q l2 -> R p q.
Proof.
  induction l1 as [ | x l1 IH ]; cbn [app]; intros H q Hq.
  - apply StronglySorted_inv in H. destruct H as [_ H].
    rewrite Forall_forall in H. now apply H.
  - apply StronglySorted_inv in H. destruct H as [H _]. now apply IH.
Qed.

Lemma sorted_app (A : Type) (R : A -> A -> Prop) (l1 l2 : list A) :
  StronglySorted R l1 -> StronglySorted R l2 ->
  (forall x y, In x l1 -> In y l2 -> R x y) ->
  StronglySorted R (l1 ++ l2).
Proof.
  induction l1 as [ | x l1 IH ]; cbn [app]; intros H1 H2 H.
  - exact H2.
  - apply StronglySorted_inv in H1. destruct H1 as [H1 Hx].
    constructor.
    + apply IH; [ exact H1 | exact H2 | ].
      intros a b Ha Hb. apply H; [ now right | exact Hb ].
    + apply Forall_app. split; [ exact Hx | ].
      rewrite Forall_forall. intros y Hy. apply H; [ now left | exact Hy ].
Qed.

Lemma sorted_same_fst (x : Z) (l : list (Z * Z)) :
  (forall q, In q l -> fst q = x) ->
  StronglySorted (fun p q => fst p <= fst q) l.
Proof.
  induction l as [ | p l IH ]; intros H; constructor.
  - apply IH. intros q Hq. apply H. now right.
  - rewrite Forall_forall. intros q Hq.
    rewrite (H p) by now left. rewrite (H q) by now right. lia.
Qed.

Lemma flat_map_fst_sorted (g : Z -> list (Z * Z)) (ops : list Z) :
  (forall x q, In q (g x) -> fst q = x) ->
  StronglySorted Z.le ops ->
  StronglySorted (fun p q => fst p <= fst q) (flat_map g ops).
Proof.
  intros Hg. induction ops as [ | x ops IH ]; intros Hs; cbn [flat_map].
  - constructor.
  - apply StronglySorted_inv in Hs. destruct Hs as [Hs Hx].
    apply sorted_app.
    + apply (@sorted_same_fst x). apply Hg.
    + apply IH, Hs.
    + intros p q Hp Hq. apply in_flat_map in Hq. destruct Hq as (y & Hy & Hq).
      rewrite (Hg x p Hp), (Hg y q Hq).
      rewrite Forall_forall in Hx. now apply Hx.
Qed.

Lemma opcode_sorted : StronglySorted Z.le opcode.
Proof.
  unfold opcode. repeat constructor; lia.
Qed.

Section Player_properties.

Variable slide : board -> Z -> Z * board.

Lemma first_legal_null (before : board) (ops : list Z) :
  first_legal slide before ops = action_null
  <-> forall op, In op ops -> fst (slide before op) = -1.
Proof.
  induction ops as [ | op rest IH ]; cbn [first_legal].
  - split; [ intros _ op [] | reflexivity ].
  - destruct (Z.eqb_spec (fst (slide before op)) (-1)) as [He | Hne]; cbn [negb].
    + rewrite IH. split.
      * intros H x [ <- | Hx ]; [ exact He | now apply H ].
      * intros H x Hx. apply H. now right.
    + split; [ discriminate | ].
      intros H. elim Hne. apply H. now left.
Qed.

Lemma first_legal_slide (before : board) (ops : list Z) (op : Z) :
  first_legal slide before ops = action_slide op ->
  In op ops /\ fst (slide before op) <> -1.
Proof.
  induction ops as [ | x rest IH ]; cbn [first_legal]; [ discriminate | ].
  destruct (Z.eqb_spec (fst (slide before x)) (-1)) as [He | Hne]; cbn [negb].
  - intros H. destruct (IH H) as [Hin Hr]. split; [ now right | exact Hr ].
  - intros H. injection H as <-. split; [ now left | exact Hne ].
Qed.

Lemma first_legal_shape (before : board) (ops : list Z) :
  first_legal slide before ops = action_null
  \/ exists op, first_legal slide before ops = action_slide op.
Proof.
  induction ops as [ | x rest IH ]; cbn [first_legal]; [ now left | ].
  destruct (negb (fst (slide before x) =? -1)); [ right; now exists x | exact IH ].
Qed.

(** X5.  The random style returns the null action exactly when all four
    slides return -1; otherwise it returns the slide action of a direction
    whose slide does not return -1.  The shuffled [opcode] stays a
    permutation of 0 .. 3. *)
Theorem player_random_action :
  forall (p : player) (shuffled : list Z) (before : board),
    play_style p = 0 ->
    Permutation opcode (player_opcode p) ->
    Permutation (player_opcode p) shuffled ->
    let a := fst (player_take_action slide shuffled p before) in
    (a = action_null <-> forall op, In op opcode -> fst (slide before op) = -1)
    /\ (a = action_null \/ exists op, a = action_slide op)
    /\ (forall op, a = action_slide op ->
                   In op opcode /\ fst (slide before op) <> -1)
    /\ Permutation opcode
         (player_opcode (snd (player_take_action slide shuffled p before))).
Proof.
  intros p shuffled before Hst Hp Hs a.
  assert (Hperm : Permutation opcode shuffled)
    by (eapply Permutation_trans; eassumption).
  assert (Hin : forall op, In op shuffled <-> In op opcode).
  { intros op. split; intros H.
    - exact (Permutation_in _ (Permutation_sym Hperm) H).
    - exact (Permutation_in _ Hperm H). }
  subst a. unfold player_take_action. rewrite Hst. cbn [Z.eqb fst snd player_opcode].
  split; [ | split; [ | split ] ].
  - rewrite first_legal_null. split; intros H op Hop; apply H; now apply Hin.
  - apply first_legal_shape.
  - intros op H. destruct (first_legal_slide _ _ H) as [Hi Hr].
    split; [ now apply Hin | exact Hr ].
  - exact Hperm.
Qed.

Lemma greedy1_is_scan (before : board) (ops : list Z) (init : Z * Z) :
  fold_left (greedy1_step slide before) ops init
  = fold_left (zscan_step snd (greedy1_cand slide before)) ops init.
Proof.
  apply fold_left_ext. intros best op _.
  unfold greedy1_step, zscan_step, greedy1_cand.
  destruct (fst (slide before op) =? -1); reflexivity.
Qed.

(** X6.  The one-ply greedy style: if some direction is legal it returns the
    slide action of the first direction of greatest reward; if every
    direction's slide is negative it returns [action::slide(-1)].  It never
    returns the null action and never changes the player. *)
Theorem player_greedy1_action :
  forall (p : player) (shuffled : list Z) (before : board),
    play_style p = 1 ->
    player_opcode p = opcode ->
    snd (player_take_action slide shuffled p before) = p
    /\ ((forall op, In op opcode -> fst (slide before op) < 0) ->
        fst (player_take_action slide shuffled p before) = action_slide (-1))
    /\ ((exists op, legal slide before op) ->
        exists op,
          fst (player_take_action slide shuffled p before) = action_slide op
          /\ legal slide before op
          /\ (forall op', In op' opcode ->
                          fst (slide before op') <= fst (slide before op))
          /\ (forall op', In op' opcode -> op' < op ->
                          fst (slide before op') < fst (slide before op))).
Proof.
  intros p shuffled before Hst Hops.
  unfold player_take_action. rewrite Hst, Hops. cbn [Z.eqb fst snd].
  split; [ reflexivity | ].
  rewrite greedy1_is_scan.
  destruct (zscan_spec snd (greedy1_cand slide before) opcode (-1, -1))
    as [ [Er Hall]
       | (l1 & op & l2 & c & Hsplit & Ec & Er & Hlt & H1 & H2) ]; rewrite Er.
  - split; [ reflexivity | ].
    intros (op & Hin & Hpos). exfalso.
    assert (Hc : greedy1_cand slide before op = Some (op, fst (slide before op))).
    { unfold greedy1_cand.
      destruct (Z.eqb_spec (fst (slide before op)) (-1)); [ lia | reflexivity ]. }
    specialize (Hall op _ Hin Hc). cbn [snd] in Hall. lia.
  - assert (Hin : In op opcode) by (eapply opcode_split_in; eassumption).
    assert (Ec' : c = (op, fst (slide before op))
                  /\ fst (slide before op) <> -1).
    { unfold greedy1_cand in Ec.
      destruct (Z.eqb_spec (fst (slide before op)) (-1)); [ discriminate | ].
      injection Ec as <-. auto. }
    destruct Ec' as [-> Hne]. cbn [snd fst] in *.
    assert (Hcmp : forall op' (l : list Z) (bound : Z -> Prop),
               (forall x c', In x l -> greedy1_cand slide before x = Some c' ->
                             bound (snd c')) ->
               In op' l ->
               fst (slide before op') = -1 \/ bound (fst (slide before op'))).
    { intros op' l bound Hb Hi. unfold greedy1_cand in Hb.
      destruct (Z.eqb_spec (fst (slide before op')) (-1)) as [He | Hn];
        [ now left | right ].
      specialize (Hb op' (op', fst (slide before op')) Hi).
      destruct (Z.eqb_spec (fst (slide before op')) (-1)); [ contradiction | ].
      apply Hb. reflexivity. }
    split.
    + intros Hneg. specialize (Hneg op Hin). lia.
    + intros _. exists op. split; [ reflexivity | ].
      split; [ split; [ exact Hin | lia ] | ].
      split.
      * intros op' Hin'. rewrite Hsplit in Hin'.
        apply in_app_or in Hin'. destruct Hin' as [ Hi | [ <- | Hi ] ].
        -- destruct (Hcmp op' l1 (fun r => r < fst (slide before op)) H1 Hi); lia.
        -- lia.
        -- destruct (Hcmp op' l2 (fun r => r <= fst (slide before op)) H2 Hi); lia.
      * intros op' Hin' Hlt'.
        pose proof (opcode_split _ _ Hsplit Hin' Hlt') as Hi.
        destruct (Hcmp op' l1 (fun r => r < fst (slide before op)) H1 Hi); lia.
Qed.

End Player_properties.

Section Player_greedy2.

Variable slide : board -> Z -> Z * board.

Lemma greedy2_is_scan (before : board) (ops : list Z) (init : Z * Z) :
  fold_left (greedy2_outer slide ops before) ops init
  = fold_left (zscan_step snd (greedy2_cand slide before))
              (greedy2_pairs slide before ops) init.
Proof.
  unfold greedy2_pairs. rewrite fold_left_flat_map.
  apply fold_left_ext. intros best op1 _. unfold greedy2_outer.
  destruct (fst (slide before op1) <? 0); [ reflexivity | ].
  rewrite fold_left_map. apply fold_left_ext. intros best' op2 _.
  unfold greedy2_inner, zscan_step, greedy2_cand, second_reward, pair_reward.
  cbn [fst snd].
  destruct (fst (slide (snd (slide before op1)) op2) <? 0); reflexivity.
Qed.

Lemma greedy2_pairs_in (before : board) (op1 op2 : Z) :
  In (op1, op2) (greedy2_pairs slide before opcode)
  <-> legal slide before op1 /\ In op2 opcode.
Proof.
  unfold greedy2_pairs, legal. rewrite in_flat_map. split.
  - intros (x & Hx & Hin).
    destruct (Z.ltb_spec (fst (slide before x)) 0); [ destruct Hin | ].
    apply in_map_iff in Hin. destruct Hin as (y & E & Hy).
    injection E as <- <-. auto.
  - intros ((Hin & Hpos) & Hin2). exists op1. split; [ exact Hin | ].
    destruct (Z.ltb_spec (fst (slide before op1)) 0); [ lia | ].
    now apply in_map.
Qed.

Lemma greedy2_pairs_sorted (before : board) :
  StronglySorted (fun p q => fst p <= fst q) (greedy2_pairs slide before opcode).
Proof.
  unfold greedy2_pairs. apply flat_map_fst_sorted; [ | exact opcode_sorted ].
  intros x q Hq. destruct (fst (slide before x) <? 0); [ destruct Hq | ].
  apply in_map_iff in Hq. destruct Hq as (y & <- & _). reflexivity.
Qed.

Lemma legal_pair_cand (before : board) (op1 op2 : Z) :
  legal_pair slide before op1 op2 ->
  In (op1, op2) (greedy2_pairs slide before opcode)
  /\ greedy2_cand slide before (op1, op2)
     = Some (op1, pair_reward slide before op1 op2).
Proof.
  intros (Hl & Hin2 & Hpos). split.
  - apply greedy2_pairs_in. auto.
  - unfold greedy2_cand. cbn [fst snd].
    destruct (Z.ltb_spec (second_reward slide before op1 op2) 0);
      [ lia | reflexivity ].
Qed.

Lemma cand_legal_pair (before : board) (pr c : Z * Z) :
  In pr (greedy2_pairs slide before opcode) ->
  greedy2_cand slide before pr = Some c ->
  legal_pair slide before (fst pr) (snd pr)
  /\ c = (fst pr, pair_reward slide before (fst pr) (snd pr)).
Proof.
  destruct pr as [op1 op2]. intros Hin Hc.
  apply greedy2_pairs_in in Hin. destruct Hin as [Hl Hin2].
  unfold greedy2_cand in Hc. cbn [fst snd] in *.
  destruct (Z.ltb_spec (second_reward slide before op1 op2) 0);
    [ discriminate | ].
  injection Hc as <-. unfold legal_pair. auto.
Qed.

(** X7.  The two-ply greedy style: if some pair of directions is legal one
    after the other, it returns the slide action of the first direction
    [op1] of a pair of greatest total reward, pairs with an earlier first
    direction having a strictly smaller total.  If no such pair exists it
    returns [action::slide(-1)], also when a single legal direction exists.
    It never changes the player. *)
Theorem player_greedy2_action :
  forall (p : player) (shuffled : list Z) (before : board),
    play_style p = 2 ->
    player_opcode p = opcode ->
    snd (player_take_action slide shuffled p before) = p
    /\ ((forall op1 op2, ~ legal_pair slide before op1 op2) ->
        fst (player_take_action slide shuffled p before) = action_slide (-1))
    /\ ((exists op1 op2, legal_pair slide before op1 op2) ->
        exists op1 op2,
          fst (player_take_action slide shuffled p before) = action_slide op1
          /\ legal_pair slide before op1 op2
          /\ (forall a b, legal_pair slide before a b ->
                          pair_reward slide before a b
                          <= pair_reward slide before op1 op2)
          /\ (forall a b, legal_pair slide before a b -> a < op1 ->
                          pair_reward slide before a b
                          < pair_reward slide before op1 op2)).
Proof.
  intros p shuffled before Hst Hops.
  unfold player_take_action. rewrite Hst, Hops. cbn [Z.eqb fst snd].
  split; [ reflexivity | ].
  rewrite greedy2_is_scan.
  destruct (zscan_spec snd (greedy2_cand slide before)
                       (greedy2_pairs slide before opcode) (-1, -1))
    as [ [Er Hall]
       | (l1 & pr & l2 & c & Hsplit & Ec & Er & Hlt & H1 & H2) ]; rewrite Er.
  - split; [ reflexivity | ].
    intros (op1 & op2 & Hlp). exfalso.
    destruct (legal_pair_cand Hlp) as [Hin Hc].
    specialize (Hall _ _ Hin Hc). cbn [snd] in Hall.
    destruct Hlp as ((_ & Hp1) & _ & Hp2). unfold pair_reward in Hall. lia.
  - assert (Hin : In pr (greedy2_pairs slide before opcode))
      by (rewrite Hsplit; apply in_elt).
    destruct (@cand_legal_pair before pr c Hin Ec) as [Hlp ->].
    destruct pr as [op1 op2]. cbn [fst snd] in *.
    split.
    + intros Hno. elim (Hno op1 op2 Hlp).
    + intros _. exists op1, op2. split; [ reflexivity | ].
      split; [ exact Hlp | ].
      assert (Hafter : forall q, In q l2 -> op1 <= fst q).
      { intros q Hq.
        pose proof (greedy2_pairs_sorted before) as Hs. rewrite Hsplit in Hs.
        exact (@sorted_after _ _ _ _ _ Hs q Hq). }
      split.
      * intros a b Hab. destruct (legal_pair_cand Hab) as [Hi Hc].
        rewrite Hsplit in Hi. apply in_app_or in Hi.
        destruct Hi as [ Hi | [ E | Hi ] ].
        -- specialize (H1 _ _ Hi Hc). cbn [snd] in H1. lia.
        -- injection E as <- <-. lia.
        -- specialize (H2 _ _ Hi Hc). exact H2.
      * intros a b Hab Hlt'. destruct (legal_pair_cand Hab) as [Hi Hc].
        rewrite Hsplit in Hi. apply in_app_or in Hi.
        destruct Hi as [ Hi | [ E | Hi ] ].
        -- specialize (H1 _ _ Hi Hc). exact H1.
        -- injection E as <- <-. lia.
        -- specialize (Hafter _ Hi). cbn [fst] in Hafter. lia.
Qed.

End Player_greedy2.

(** *** The style chosen by the constructor *)

Lemma last_value_mentions (key : string) (l : list string) :
  match last_value key l with Some _ => true | None => false end
  = mentions key l.
Proof.
  unfold last_value, mentions.
  induction l as [ | t l IH ] using rev_ind; [ reflexivity | ].
  rewrite fold_left_app, existsb_app. cbn [fold_left existsb].
  unfold last_value_step at 1.
  destruct (String.eqb (token_key t) key).
  - now rewrite orb_true_r.
  - rewrite orb_false_r. exact IH.
Qed.

Lemma player_has_key (args key : string) :
  key <> "name"%string -> key <> "role"%string ->
  has_key (player_agent args) key = mentions key (tokens args).
Proof.
  intros Hn Hr. unfold has_key. rewrite player_agent_find.
  rewrite <- last_value_mentions.
  destruct (last_value key (tokens args)); [ reflexivity | ].
  unfold class_default.
  destruct (String.eqb_spec "name" key); [ congruence | ].
  destruct (String.eqb_spec "role" key); [ congruence | reflexivity ].
Qed.

(** X4.  The style of a constructed player depends only on which of the keys
    "random", "greedy1", "greedy2" occur among the argument tokens, in that
    order of precedence and whatever their position; with none of them it is
    the random style. *)
Theorem player_new_style :
  forall args : string,
    play_style (player_new args)
    = (if mentions "random" (tokens args) then 0
       else if mentions "greedy1" (tokens args) then 1
       else if mentions "greedy2" (tokens args) then 2
       else 0)
    /\ player_opcode (player_new args) = opcode.
Proof.
  intros args. split; [ | reflexivity ].
  unfold player_new. cbn [play_style].
  rewrite !player_has_key by discriminate. reflexivity.
Qed.

(** ** TD_player: weights and episodes *)

Lemma indexed_features_in (b : board) (k : nat) (idx : Z) :
  In (k, idx) (indexed_features b) ->
  (k < 32)%nat /\ idx = nth k (features b) 0.
Proof.
  intros H. apply selects_in in H. rewrite selects_indexed_features in H.
  apply andb_true_iff in H. destruct H as [H1 H2].
  apply Nat.ltb_lt in H1. apply Z.eqb_eq in H2. auto.
Qed.

Section TD_frame.

Context {F : Type} {FO : FloatOps F}.
Variable slide : board -> Z -> Z * board.

(** X13.  Choosing a move and opening an episode never touch the weights, the
    learning rate or the horizon; closing an episode never touches the
    learning rate, the horizon or the history. *)
Theorem td_player_frame :
  forall (st : TD_player F) (before : board),
    net (snd (take_action slide st before)) = net st
    /\ alpha (snd (take_action slide st before)) = alpha st
    /\ n_step (snd (take_action slide st before)) = n_step st
    /\ net (open_episode st) = net st
    /\ alpha (open_episode st) = alpha st
    /\ n_step (open_episode st) = n_step st
    /\ alpha (close_episode st) = alpha st
    /\ n_step (close_episode st) = n_step st
    /\ history (close_episode st) = history st.
Proof.
  intros st before.
  assert (Hc : alpha (close_episode st) = alpha st
               /\ n_step (close_episode st) = n_step st
               /\ history (close_episode st) = history st).
  { unfold close_episode.
    destruct (List.length (history st) =? 0)%nat; [ auto | ].
    destruct (f_eq _ _); auto. }
  destruct (take_action_cases slide st before) as [E | (op & _ & E)]; rewrite E;
    cbn [snd push_back net alpha n_step]; tauto.
Qed.

Lemma estimate_value_ext (net1 net2 : network F) (b : board) :
  (forall k, (k < 32)%nat ->
             net1 k (nth k (features b) 0) = net2 k (nth k (features b) 0)) ->
  estimate_value net1 b = estimate_value net2 b.
Proof.
  intros H. unfold estimate_value.
  apply fold_left_ext. intros v [k idx] Hin.
  destruct (@indexed_features_in b k idx Hin) as [Hk ->]. cbn [fst snd].
  now rewrite H.
Qed.

(** X10.  The estimate of a board reads only the 32 entries
    [net[k][features k]]: two networks that agree on them give the same
    estimate. *)
Theorem estimate_value_reads_features :
  forall (net1 net2 : network F) (b : board),
    (forall k, (k < 32)%nat ->
               net1 k (nth k (features b) 0) = net2 k (nth k (features b) 0)) ->
    estimate_value net1 b = estimate_value net2 b.
Proof.
  intros net1 net2 b H. now apply estimate_value_ext.
Qed.

Lemma adjust_value_elsewhere (net0 : network F) (a : F) (b : board) (target : Z)
    (k : nat) (idx : Z) :
  selects k idx (indexed_features b) = false ->
  adjust_value net0 a b target k idx = net0 k idx.
Proof.
  intros H. unfold adjust_value.
  rewrite add_at_each_spec by (rewrite indexed_features_tables; apply seq_NoDup).
  now rewrite H.
Qed.

(** X14.  Adjusting one board leaves the estimate of every board that shares
    no feature index with it unchanged. *)
Theorem adjust_value_keeps_disjoint_estimate :
  forall (net0 : network F) (a : F) (b b' : board) (target : Z),
    (forall k, (k < 32)%nat ->
               nth k (features b) 0 <> nth k (features b') 0) ->
    estimate_value (adjust_value net0 a b target) b' = estimate_value net0 b'.
Proof.
  intros net0 a b b' target H.
  apply estimate_value_ext. intros k Hk.
  apply adjust_value_elsewhere. rewrite selects_indexed_features.
  apply andb_false_iff. right. apply Z.eqb_neq.
  intros E. now apply (H k Hk).
Qed.

(** X18.  [close_episode] changes only entries at feature indices of recorded
    afterstates: an entry [net[k][idx]] that no recorded afterstate selects
    keeps its value. *)
Theorem close_episode_frame :
  forall (st : TD_player F) (k : nat) (idx : Z),
    (forall s, In s (history st) ->
               selects k idx (indexed_features (after s)) = false) ->
    net (close_episode st) k idx = net st k idx.
Proof.
  intros st k idx H. unfold close_episode.
  destruct (history st) as [ | s0 h ] eqn:Eh; [ reflexivity | ].
  cbn [List.length Nat.eqb].
  destruct (f_eq (alpha st) (f_of_int 0)); [ reflexivity | ].
  cbn [with_net net].
  apply (fold_left_invariant (fun n => n k idx = net st k idx)).
  - apply adjust_value_elsewhere. apply H.
    rewrite <- Eh. destruct (exists_last (l := history st)) as (l' & x & E).
    + rewrite Eh. discriminate.
    + rewrite E, last_last. apply in_elt.
  - intros n i Hi Hn. unfold close_step.
    assert (Hin : In (nth i (s0 :: h) no_step) (s0 :: h)).
    { apply nth_In. rewrite <- in_rev in Hi. apply in_seq in Hi.
      cbn [List.length] in *. lia. }
    destruct (Z.of_nat i + n_step st >=? Z.of_nat (List.length (s0 :: h)));
      rewrite adjust_value_elsewhere; auto.
Qed.

End TD_frame.

(** ** Closing the episode with a long horizon *)

Section Monte_carlo.

Context {F : Type} {FO : FloatOps F}.

Lemma truncated_target_long_horizon (net0 : network F) (history0 : list step)
    (i : nat) (n : Z) :
  Z.of_nat (List.length history0) <= n ->
  truncated_target net0 history0 i n = rewards_after history0 i.
Proof.
  intros Hn. unfold truncated_target, rewards_after, n_step_rewards.
  assert (E : nth_error history0 (i + Z.to_nat n) = None)
    by (apply nth_error_None; lia).
  rewrite E. rewrite firstn_all2; [ reflexivity | ].
  rewrite length_skipn. lia.
Qed.

(** When the horizon is at least the number of recorded steps, no
    target uses the network: the last afterstate is adjusted toward 0 and
    every earlier one toward the sum of the rewards recorded after it. *)
Theorem close_episode_long_horizon :
  forall st : TD_player F,
    history st <> [] ->
    f_eq (alpha st) (f_of_int 0) = false ->
    Z.of_nat (List.length (history st)) <= n_step st ->
    net (close_episode st)
    = fold_left
        (fun net0 i =>
           adjust_value net0 (alpha st) (after (nth i (history st) no_step))
                        (rewards_after (history st) i))
        (rev (seq 0 (List.length (history st) - 1)))
        (adjust_value (net st) (alpha st)
                      (after (last (history st) no_step)) 0).
Proof.
  intros st Hne Ha Hn. unfold close_episode.
  destruct (history st) as [ | s h ] eqn:Eh; [ congruence | ].
  cbn [List.length Nat.eqb]. rewrite Ha. cbn [with_net net].
  apply fold_left_ext. intros net0 i _.
  rewrite close_step_target by lia.
  now rewrite truncated_target_long_horizon.
Qed.

End Monte_carlo.

Lemma mentions_last_value (key : string) (l : list string) :
  mentions key l = false -> last_value key l = None.
Proof.
  intros H. rewrite <- last_value_mentions in H.
  now destruct (last_value key l).
Qed.

(** X8.  A TD player constructed from arguments that bind none of "load",
    "alpha" and "n" is always built, with learning rate 0, horizon 1 and an
    empty history; its tables are the allocated zero tables when "init" is
    bound and the empty vector otherwise. *)
Theorem TD_player_new_defaults :
  forall (F : Type) (FO : FloatOps F)
         (stod_float : string -> option F) (stod_int : string -> option Z)
         (load_weights : string -> network F -> option (network F))
         (unallocated : network F) (args : string),
    mentions "load" (tokens args) = false ->
    mentions "alpha" (tokens args) = false ->
    mentions "n" (tokens args) = false ->
    TD_player_new stod_float stod_int load_weights unallocated args
    = Some {| net := if mentions "init" (tokens args) then init_weights
                     else unallocated;
              alpha := f_of_int 0; n_step := 1; history := [] |}.
Proof.
  intros F FO sf si lw un args Hl Ha Hn. unfold TD_player_new.
  rewrite (TD_player_agent_find args "alpha"), (TD_player_agent_find args "n"),
    (TD_player_agent_find args "load"), (TD_player_agent_find args "init").
  rewrite (mentions_last_value _ _ Ha), (mentions_last_value _ _ Hn),
    (mentions_last_value _ _ Hl).
  rewrite <- (last_value_mentions "init" (tokens args)).
  now destruct (last_value "init" (tokens args)).
Qed.

(** The statement of X8 for the arguments "init=0". *)
Lemma TD_player_new_defaults_witness :
  mentions "load" (tokens "init=0") = false
  /\ TD_player_new (F := Q) (fun _ => None) (fun _ => None) (fun _ _ => None)
       (fun _ _ => 1%Q) "init=0"
     = Some {| net := init_weights; alpha := 0%Q; n_step := 1; history := [] |}.
Proof.
  split; [ reflexivity | ].
  apply (@TD_player_new_defaults Q exact (fun _ => None) (fun _ => None)
           (fun _ _ => None) (fun _ _ => 1%Q) "init=0"); reflexivity.
Defined.

(** ** The earlier revision *)

Lemma agent_h_extract_feature_range (b : board) (p1 p2 p3 p4 p5 : nat) :
  Forall (fun i => 0 <= cell_at b i < 25) [p1; p2; p3; p4; p5] ->
  0 <= Agent_h.extract_feature b p1 p2 p3 p4 p5 < 25 * 25 * 25 * 25 * 25.
Proof.
  rewrite Forall_forall. intros H.
  assert (A1 := H p1 ltac:(simpl; tauto)). assert (A2 := H p2 ltac:(simpl; tauto)).
  assert (A3 := H p3 ltac:(simpl; tauto)). assert (A4 := H p4 ltac:(simpl; tauto)).
  assert (A5 := H p5 ltac:(simpl; tauto)).
  cbv beta in *. unfold Agent_h.extract_feature. lia.
Qed.

(** X22.  In the earlier revision, on a board whose cells are all below 25,
    every index used by [estimate_value] and [adjust_value] lies inside the
    25^5 entries [init_weights] allocates for each of the 24 tables. *)
Theorem agent_h_features_in_range :
  forall b : board,
    Forall (fun i => 0 <= cell_at b i < 25) (seq 0 16) ->
    map fst (Agent_h.indexed_features b) = seq 0 24
    /\ Forall (fun ki => 0 <= snd ki < 25 * 25 * 25 * 25 * 25)
              (Agent_h.indexed_features b).
Proof.
  intros b H. split; [ reflexivity | ].
  unfold Agent_h.indexed_features, Agent_h.features.
  cbn [combine seq].
  rewrite Forall_forall in H.
  repeat (apply Forall_cons;
          [ cbn [fst snd]; apply agent_h_extract_feature_range;
            repeat (apply Forall_cons; [ apply H; cbn; tauto | ]);
            apply Forall_nil
          | ]).
  apply Forall_nil.
Qed.

(** The statement of X22 on the corner board. *)
Lemma agent_h_features_in_range_witness :
  Forall (fun ki => 0 <= snd ki < 25 * 25 * 25 * 25 * 25)
         (Agent_h.indexed_features corner_board).
Proof.
  apply (proj2 (@agent_h_features_in_range corner_board
                  ltac:(repeat constructor; cbn; lia))).
Defined.

(** X11.  On a board without an empty cell [expect_value] is 0: the loop over
    the empty cells does not run, so nothing is divided by the zero count. *)
Theorem expect_value_full_board :
  forall (F : Type) (FO : FloatOps F) (slide : board -> Z -> Z * board)
         (net0 : network F) (b : board),
    (forall i, (i < 16)%nat -> cell_at b i <> 0) ->
    expect_value slide net0 b = f_zero.
Proof.
  intros F FO slide net0 b H. unfold expect_value.
  assert (E : empty_tiles b = []).
  { unfold empty_tiles.
    destruct (filter (fun i => cell_at b i =? 0) (seq 0 16)) as [ | n l ] eqn:Ef;
      [ reflexivity | ].
    assert (Hin : In n (filter (fun i => cell_at b i =? 0) (seq 0 16)))
      by (rewrite Ef; now left).
    apply filter_In in Hin. destruct Hin as [Hin Hz].
    apply in_seq in Hin. apply Z.eqb_eq in Hz.
    elim (H n); [ lia | exact Hz ]. }
  now rewrite E.
Qed.

(** The statement of X11 on the full board [stuck_board]. *)
Lemma expect_value_full_board_witness :
  expect_value (FO := binary32) slide_2048 half_net stuck_board = f_zero.
Proof.
  apply (@expect_value_full_board _ binary32 slide_2048 half_net stuck_board).
  intros i Hi.
  do 16 (destruct i as [ | i ]; [ vm_compute; discriminate | ]). lia.
Defined.

(** ** Examples for the players *)

(** The statement of X5 for a player without arguments on the corner board,
    the shuffle leaving 3, 2, 1, 0. *)
Lemma player_random_action_witness :
  let a := fst (player_take_action slide_2048 [3; 2; 1; 0] (player_new "")
                                   corner_board) in
  (a = action_null
   <-> forall op, In op opcode -> fst (slide_2048 corner_board op) = -1)
  /\ (a = action_null \/ exists op, a = action_slide op)
  /\ (forall op, a = action_slide op ->
                 In op opcode /\ fst (slide_2048 corner_board op) <> -1)
  /\ Permutation opcode
       (player_opcode (snd (player_take_action slide_2048 [3; 2; 1; 0]
                                               (player_new "") corner_board))).
Proof.
  apply (@player_random_action slide_2048 (player_new "") [3; 2; 1; 0]
           corner_board).
  - reflexivity.
  - apply Permutation_refl.
  - apply (Permutation_rev [0; 1; 2; 3]).
Defined.

(** The statement of X6 for the player given "greedy1" on the corner board. *)
Lemma player_greedy1_action_witness :
  play_style (player_new "greedy1") = 1
  /\ exists op,
       fst (player_take_action slide_2048 opcode (player_new "greedy1")
                               corner_board) = action_slide op
       /\ legal slide_2048 corner_board op
       /\ (forall op', In op' opcode ->
                       fst (slide_2048 corner_board op')
                       <= fst (slide_2048 corner_board op))
       /\ (forall op', In op' opcode -> op' < op ->
                       fst (slide_2048 corner_board op')
                       < fst (slide_2048 corner_board op)).
Proof.
  split; [ reflexivity | ].
  apply (proj2 (proj2 (@player_greedy1_action slide_2048
                         (player_new "greedy1") opcode corner_board
                         eq_refl eq_refl))).
  exists 1. split; [ cbn; tauto | vm_compute; discriminate ].
Defined.

(** The statement of X7 for the player given "greedy2" on the corner board. *)
Lemma player_greedy2_action_witness :
  play_style (player_new "greedy2") = 2
  /\ exists op1 op2,
       fst (player_take_action slide_2048 opcode (player_new "greedy2")
                               corner_board) = action_slide op1
       /\ legal_pair slide_2048 corner_board op1 op2
       /\ (forall a b, legal_pair slide_2048 corner_board a b ->
                       pair_reward slide_2048 corner_board a b
                       <= pair_reward slide_2048 corner_board op1 op2)
       /\ (forall a b, legal_pair slide_2048 corner_board a b -> a < op1 ->
                       pair_reward slide_2048 corner_board a b
                       < pair_reward slide_2048 corner_board op1 op2).
Proof.
  split; [ reflexivity | ].
  apply (proj2 (proj2 (@player_greedy2_action slide_2048
                         (player_new "greedy2") opcode corner_board
                         eq_refl eq_refl))).
  exists 1, 2. split; [ split; [ cbn; tauto | vm_compute; discriminate ] | ].
  split; [ cbn; tauto | vm_compute; discriminate ].
Defined.

(** ** Examples for the weights *)

(** The statement of X10 for two networks that differ in the entry
    [net[0][0]], which the corner board does not read. *)
Lemma estimate_value_reads_features_witness :
  estimate_value (FO := exact) half_net corner_board
  = estimate_value (net_set half_net 0 0 (7 # 1)%Q) corner_board.
Proof.
  apply (@estimate_value_reads_features Q exact half_net
           (net_set half_net 0 0 (7 # 1)%Q) corner_board).
  intros k Hk. unfold net_set.
  destruct k as [ | k ]; reflexivity.
Defined.

(** The statement of X14 for the empty board and the board of 2-tiles, which
    share no index. *)
Lemma adjust_value_keeps_disjoint_estimate_witness :
  estimate_value (FO := binary32)
    (adjust_value half_net f_0_1 (repeat 0 16) 7) (repeat 1 16)
  = estimate_value half_net (repeat 1 16).
Proof.
  apply (@adjust_value_keeps_disjoint_estimate _ binary32 half_net f_0_1
           (repeat 0 16) (repeat 1 16) 7).
  intros k Hk.
  do 32 (destruct k as [ | k ]; [ vm_compute; discriminate | ]). lia.
Defined.

(** The statement of X18 for [player2] and the entry [net[0][5]]. *)
Lemma close_episode_frame_witness :
  net (close_episode (player2 (FO := binary32))) 0%nat 5
  = net (player2 (FO := binary32)) 0%nat 5.
Proof.
  apply (@close_episode_frame _ binary32 (player2 (FO := binary32)) 0%nat 5).
  intros s [ <- | [ <- | [] ] ]; vm_compute; reflexivity.
Defined.

(** ** Examples for the lemmas on indices, targets and the earlier revision *)

(** X9.  On a board whose cells are all below 31, [estimate_value] and
    [adjust_value] address the tables 0 .. 31, and each index lies inside
    the table [init_weights] allocates: 31^5 entries for the tables below
    24, 31^4 for the other eight. *)
Theorem features_within_tables :
  forall b : board,
    cells_in_range b (seq 0 16) ->
    map fst (indexed_features b) = seq 0 32
    /\ Forall (fun ki => 0 <= snd ki < table_size (fst ki)) (indexed_features b).
Proof.
  intros b H. split; [ reflexivity | exact (features_in_range H) ].
Qed.

(** The statement of X9 on the corner board. *)
Lemma features_within_tables_witness :
  map fst (indexed_features corner_board) = seq 0 32
  /\ Forall (fun ki => 0 <= snd ki < table_size (fst ki))
            (indexed_features corner_board).
Proof.
  apply (@features_within_tables corner_board).
  unfold cells_in_range. repeat constructor; cbn; lia.
Defined.

(** The statement of X23 for two boards that differ in the last cell only. *)
Lemma agent_h_extract_feature_injective_witness :
  map (cell_at corner_board) [0; 1; 2; 3; 4]%nat
  = map (cell_at corner_board') [0; 1; 2; 3; 4]%nat.
Proof.
  apply (@agent_h_extract_feature_injective corner_board corner_board'
           0 1 2 3 4).
  - repeat constructor; cbn; lia.
  - repeat constructor; cbn; lia.
  - reflexivity.
Defined.

(** The statement of X24 on the full board [stuck_board]. *)
Lemma agent_h_take_action_no_legal_direction_witness :
  Agent_h.take_action (FO := binary32) slide_2048 (player0 f_0_1 1 episode2)
                      stuck_board
  = (action_slide (-1), player0 f_0_1 1 episode2).
Proof.
  apply (@agent_h_take_action_no_legal_direction _ binary32 slide_2048
           (player0 (FO := binary32) f_0_1 1 episode2) stuck_board).
  exact stuck_board_illegal.
Defined.

Section More_TD.

Context {F : Type} {FO : FloatOps F}.
Variable slide : board -> Z -> Z * board.

(** X12.  Under any float arithmetic [take_action] returns a slide action,
    never a placement or the null action: either of -1, leaving the agent
    as it was, or of a legal direction, whose reward and afterstate it
    appends to the history.  It never returns an illegal direction. *)
Theorem take_action_never_illegal :
  forall (st : TD_player F) (before : board),
  exists op,
    fst (take_action slide st before) = action_slide op
    /\ ((op = -1 /\ snd (take_action slide st before) = st)
        \/ (legal slide before op
            /\ snd (take_action slide st before)
               = push_back st (step_of slide before op))).
Proof.
  intros st before.
  destruct (take_action_cases slide st before) as [E | (op & Hl & E)]; rewrite E.
  - exists (-1). split; [ reflexivity | left; split; reflexivity ].
  - exists op. split; [ reflexivity | right; split; [ exact Hl | reflexivity ] ].
Qed.

(** X21.  With horizon 0 no reward enters a target: the last afterstate is
    adjusted toward 0 and every earlier one toward its own estimate,
    converted to [int]. *)
Theorem close_episode_zero_horizon :
  forall st : TD_player F,
    history st <> [] ->
    f_eq (alpha st) (f_of_int 0) = false ->
    n_step st = 0 ->
    net (close_episode st)
    = fold_left
        (fun net0 i =>
           adjust_value net0 (alpha st) (after (nth i (history st) no_step))
             (f_to_int
                (f_add (f_of_int 0)
                       (estimate_value net0
                          (after (nth i (history st) no_step))))))
        (rev (seq 0 (List.length (history st) - 1)))
        (adjust_value (net st) (alpha st)
                      (after (last (history st) no_step)) 0).
Proof.
  intros st Hne Ha Hn. unfold close_episode.
  destruct (history st) as [ | s h ] eqn:Eh; [ congruence | ].
  cbn [List.length Nat.eqb]. rewrite Ha, Hn. cbn [with_net net].
  apply fold_left_ext. intros net0 i Hi.
  rewrite <- in_rev in Hi. apply in_seq in Hi.
  unfold close_step. cbn [Z.to_nat reward_loop].
  destruct (Z.geb_spec (Z.of_nat i + 0) (Z.of_nat (List.length (s :: h))))
    as [Hge | Hlt].
  - cbn [List.length] in Hge, Hi. lia.
  - replace (Z.to_nat (Z.of_nat i + 0)) with i by lia. reflexivity.
Qed.

End More_TD.

(** The statement of X21 for [player2_zero]. *)
Lemma close_episode_zero_horizon_witness :
  net (close_episode player2_zero)
  = fold_left
      (fun net0 i =>
         adjust_value net0 (alpha player2_zero)
           (after (nth i (history player2_zero) no_step))
           (f_to_int
              (f_add (f_of_int 0)
                     (estimate_value net0
                        (after (nth i (history player2_zero) no_step))))))
      (rev (seq 0 (List.length (history player2_zero) - 1)))
      (adjust_value (net player2_zero) (alpha player2_zero)
                    (after (last (history player2_zero) no_step)) 0).
Proof.
  apply (@close_episode_zero_horizon Q exact player2_zero).
  - discriminate.
  - reflexivity.
  - reflexivity.
Defined.

(** * The agent in single precision

    The comparisons and sums of the program are float operations.  The
    loops that keep a best candidate are characterised through the order
    of the single-precision comparison, and the updates through the float
    sums they produce. *)

(** ** The order of single-precision comparisons *)

Lemma SFltb_rank (a b : spec_float) :
  b32_is_nan a = false -> b32_is_nan b = false ->
  (SFltb a b = true <-> lex_lt (b32_rank a) (b32_rank b)).
Proof.
  intros Ha Hb. unfold SFltb, lex_lt.
  destruct a as [ sa | sa | | sa ma ea ]; try discriminate Ha;
    destruct b as [ sb | sb | | sb mb eb ]; try discriminate Hb;
    try destruct sa; try destruct sb; cbn [SFcompare b32_rank fst snd];
    try (change (Pos.compare_cont Eq ma mb) with (Pos.compare ma mb);
         destruct (Z.compare_spec ea eb); try destruct (Pos.compare_spec ma mb);
         cbn [CompOpp]);
    split; intros Hx; try discriminate Hx; try reflexivity; try lia.
Qed.

Lemma b32_gt_not_nan (a b : spec_float) :
  f_gt (FloatOps := binary32) a b = true ->
  b32_is_nan a = false /\ b32_is_nan b = false.
Proof.
  cbn [f_gt binary32]. unfold SFltb.
  destruct a, b; cbn; intros H; try discriminate H; auto.
Qed.

Lemma b32_gt_rank (a b : spec_float) :
  f_gt (FloatOps := binary32) a b = true
  <-> b32_is_nan a = false /\ b32_is_nan b = false
      /\ lex_lt (b32_rank b) (b32_rank a).
Proof.
  split.
  - intros H. destruct (b32_gt_not_nan _ _ H) as [Ha Hb].
    repeat split; try assumption. apply SFltb_rank; assumption.
  - intros (Ha & Hb & H). cbn [f_gt binary32]. apply SFltb_rank; assumption.
Qed.

Lemma b32_gt_asym (a b : spec_float) :
  f_gt (FloatOps := binary32) a b = true -> f_gt (FloatOps := binary32) b a = false.
Proof.
  intros H. apply b32_gt_rank in H. destruct H as (Ha & Hb & H).
  destruct (f_gt b a) eqn:E; [ | reflexivity ].
  apply b32_gt_rank in E. destruct E as (_ & _ & E).
  unfold lex_lt in *. lia.
Qed.

Lemma b32_gt_trans (a b c : spec_float) :
  f_gt (FloatOps := binary32) a b = true -> f_gt (FloatOps := binary32) b c = true ->
  f_gt (FloatOps := binary32) a c = true.
Proof.
  intros H1 H2. apply b32_gt_rank in H1, H2.
  destruct H1 as (Ha & Hb & H1), H2 as (_ & Hc & H2).
  apply b32_gt_rank. repeat split; try assumption.
  unfold lex_lt in *. lia.
Qed.

Lemma b32_gt_le_trans (a b c : spec_float) :
  f_gt (FloatOps := binary32) a b = true -> f_gt (FloatOps := binary32) c b = false ->
  b32_is_nan c = false ->
  f_gt (FloatOps := binary32) a c = true.
Proof.
  intros H1 H2 Hc. apply b32_gt_rank in H1. destruct H1 as (Ha & Hb & H1).
  apply b32_gt_rank. repeat split; try assumption.
  assert (H3 : ~ lex_lt (b32_rank b) (b32_rank c)).
  { intros H. rewrite (proj2 (b32_gt_rank c b)) in H2; [ discriminate | auto ]. }
  unfold lex_lt in *. lia.
Qed.

(** ** Scans that keep the best candidate *)

Section Float_scan.

Variables S K : Type.
Variable key : S -> K.
Variable gt : K -> K -> bool.
Variable nan : K -> bool.
Variable cand : Z -> option S.

(** Nothing is selected when no candidate compares greater than the
    initial record; this needs nothing of the comparison. *)
Lemma fscan_none (ops : list Z) (init : S) :
  (forall op c, In op ops -> cand op = Some c -> gt (key c) (key init) = false) ->
  fold_left (fscan_step key gt cand) ops init = init.
Proof.
  induction ops as [ | op ops IH ]; intros H; [ reflexivity | ].
  cbn [fold_left]. unfold fscan_step at 2.
  destruct (cand op) as [ c | ] eqn:Ec.
  - rewrite (H op c (or_introl eq_refl) Ec).
    apply IH. intros op' c' Hin. apply H. now right.
  - apply IH. intros op' c' Hin. apply H. now right.
Qed.

Hypothesis gt_asym : forall a b, gt a b = true -> gt b a = false.
Hypothesis gt_trans :
  forall a b c, gt a b = true -> gt b c = true -> gt a c = true.
Hypothesis gt_le_trans :
  forall a b c, gt a b = true -> gt c b = false -> nan c = false ->
                gt a c = true.

Lemma gt_irrefl (a : K) : gt a a = false.
Proof.
  destruct (gt a a) eqn:E; [ | reflexivity ].
  now rewrite (gt_asym E) in E.
Qed.

(** The scan returns its initial record when no candidate compares greater
    than it, and otherwise the first candidate than which none is
    greater. *)
Lemma fscan_spec (ops : list Z) :
  forall init : S,
    (fold_left (fscan_step key gt cand) ops init = init
     /\ forall op c, In op ops -> cand op = Some c ->
                     gt (key c) (key init) = false)
    \/ exists l1 op l2 c,
         ops = l1 ++ op :: l2 /\ cand op = Some c
         /\ fold_left (fscan_step key gt cand) ops init = c
         /\ gt (key c) (key init) = true
         /\ (forall op' c', In op' l1 -> cand op' = Some c' ->
                            gt (key c') (key c) = false
                            /\ (nan (key c') = true \/ gt (key c) (key c') = true))
         /\ (forall op' c', In op' l2 -> cand op' = Some c' ->
                            gt (key c') (key c) = false).
Proof.
  induction ops as [ | op ops IH ]; intros init.
  - left. split; [ reflexivity | intros ? ? [] ].
  - cbn [fold_left].
    assert (Es : fscan_step key gt cand init op
                 = match cand op with
                   | Some c => if gt (key c) (key init) then c else init
                   | None => init
                   end) by reflexivity.
    destruct (cand op) as [ c | ] eqn:Ec.
    + destruct (gt (key c) (key init)) eqn:Egt; rewrite Es; clear Es.
      * destruct (IH c)
          as [ [Er Hle]
             | (l1 & op2 & l2 & c2 & -> & Ec2 & Er & Hlt & H1 & H2) ].
        -- right. exists [], op, ops, c.
           split; [ reflexivity | ]. split; [ exact Ec | ].
           split; [ exact Er | ]. split; [ exact Egt | ].
           split; [ intros ? ? [] | exact Hle ].
        -- right. exists (op :: l1), op2, l2, c2.
           split; [ reflexivity | ]. split; [ exact Ec2 | ].
           split; [ exact Er | ].
           split; [ eapply gt_trans; eassumption | ].
           split; [ | exact H2 ].
           intros op' c' [ <- | Hin ] Hc'.
           ++ rewrite Ec in Hc'. injection Hc' as <-.
              split; [ now apply gt_asym | now right ].
           ++ eapply H1; eassumption.
      * destruct (IH init)
          as [ [Er Hle]
             | (l1 & op2 & l2 & c2 & -> & Ec2 & Er & Hlt & H1 & H2) ].
        -- left. split; [ exact Er | ].
           intros op' c' [ <- | Hin ] Hc'.
           ++ rewrite Ec in Hc'. injection Hc' as <-. exact Egt.
           ++ eapply Hle; eassumption.
        -- right. exists (op :: l1), op2, l2, c2.
           split; [ reflexivity | ]. split; [ exact Ec2 | ].
           split; [ exact Er | ]. split; [ exact Hlt | ].
           split; [ | exact H2 ].
           intros op' c' [ <- | Hin ] Hc'.
           ++ rewrite Ec in Hc'. injection Hc' as <-.
              split.
              ** destruct (gt (key c) (key c2)) eqn:E; [ | reflexivity ].
                 rewrite (gt_trans E Hlt) in Egt. discriminate.
              ** destruct (nan (key c)) eqn:En; [ now left | right ].
                 eapply gt_le_trans; eassumption.
           ++ eapply H1; eassumption.
    + rewrite Es; clear Es.
      destruct (IH init)
        as [ [Er Hle]
           | (l1 & op2 & l2 & c2 & -> & Ec2 & Er & Hlt & H1 & H2) ].
      * left. split; [ exact Er | ].
        intros op' c' [ <- | Hin ] Hc'; [ congruence | eapply Hle; eassumption ].
      * right. exists (op :: l1), op2, l2, c2.
        split; [ reflexivity | ]. split; [ exact Ec2 | ].
        split; [ exact Er | ]. split; [ exact Hlt | ].
        split; [ | exact H2 ].
        intros op' c' [ <- | Hin ] Hc'; [ congruence | eapply H1; eassumption ].
Qed.

End Float_scan.

Section Float_loops.

Context {F : Type} {FO : FloatOps F}.
Variable slide : board -> Z -> Z * board.
Variable net0 : network F.

Lemma best_slide_is_fscan (state : board) :
  best_slide slide net0 state
  = fold_left (fscan_step float_pair_key f_gt (float_slide_cand slide net0 state))
              opcode (-1, f_lowest).
Proof.
  unfold best_slide. apply fold_left_ext.
  intros best op _. unfold best_slide_step, fscan_step, float_slide_cand.
  destruct (fst (slide state op) <? 0); reflexivity.
Qed.

Lemma take_action_search_is_fscan (before : board) :
  take_action_search slide net0 before
  = fold_left (fscan_step search_key f_gt (float_search_cand slide net0 before))
              opcode search_init.
Proof.
  unfold take_action_search. apply fold_left_ext.
  intros best op _. unfold take_action_step, fscan_step, float_search_cand.
  destruct (fst (slide before op) <? 0); reflexivity.
Qed.

Lemma float_slide_cand_legal (state : board) (op : Z) (c : Z * F) :
  In op opcode -> float_slide_cand slide net0 state op = Some c ->
  legal slide state op
  /\ c = (fst (slide state op), estimate_value net0 (snd (slide state op))).
Proof.
  unfold float_slide_cand, legal. intros Hin H.
  destruct (Z.ltb_spec (fst (slide state op)) 0); [ discriminate | ].
  injection H as <-. auto.
Qed.

Lemma legal_float_slide_cand (state : board) (op : Z) :
  legal slide state op ->
  float_slide_cand slide net0 state op
  = Some (fst (slide state op), estimate_value net0 (snd (slide state op))).
Proof.
  unfold float_slide_cand, legal. intros [_ H].
  destruct (Z.ltb_spec (fst (slide state op)) 0); [ lia | reflexivity ].
Qed.

Lemma float_search_cand_legal (before : board) (op : Z) (c : search F) :
  In op opcode -> float_search_cand slide net0 before op = Some c ->
  legal slide before op /\ c = search_of slide net0 before op.
Proof.
  unfold float_search_cand, legal. intros Hin H.
  destruct (Z.ltb_spec (fst (slide before op)) 0); [ discriminate | ].
  injection H as <-. auto.
Qed.

Lemma legal_float_search_cand (before : board) (op : Z) :
  legal slide before op ->
  float_search_cand slide net0 before op = Some (search_of slide net0 before op).
Proof.
  unfold float_search_cand, legal. intros [_ H].
  destruct (Z.ltb_spec (fst (slide before op)) 0); [ lia | reflexivity ].
Qed.

(** Under any float arithmetic: when no legal direction's score compares
    greater than the initial score, the loop of [take_action] selects
    nothing. *)
Lemma take_action_search_none (before : board) :
  (forall op, legal slide before op ->
              f_gt (float_move_score slide net0 before op) initial_score = false) ->
  take_action_search slide net0 before = search_init.
Proof.
  intros H. rewrite take_action_search_is_fscan. apply fscan_none.
  intros op c Hin Ec.
  destruct (float_search_cand_legal before Hin Ec) as [Hl ->].
  exact (H op Hl).
Qed.

End Float_loops.

(** The loops under a comparison that orders the values that are not NaN. *)
Section Float_loops_ordered.

Context {F : Type} {FO : FloatOps F}.
Variable nan : F -> bool.
Hypothesis gt_asym : forall a b : F, f_gt a b = true -> f_gt b a = false.
Hypothesis gt_trans :
  forall a b c : F, f_gt a b = true -> f_gt b c = true -> f_gt a c = true.
Hypothesis gt_le_trans :
  forall a b c : F, f_gt a b = true -> f_gt c b = false -> nan c = false ->
                    f_gt a c = true.
Hypothesis gt_not_nan : forall a b : F, f_gt a b = true -> nan a = false.

Variable slide : board -> Z -> Z * board.
Variable net0 : network F.

(** The inner loops of [expect_value] compute [float_best_estimate]. *)
Lemma best_slide_float_best_estimate (state : board) :
  float_best_estimate nan slide net0 state (snd (best_slide slide net0 state)).
Proof.
  rewrite best_slide_is_fscan.
  destruct (@fscan_spec _ _ float_pair_key f_gt nan
              (float_slide_cand slide net0 state)
              gt_asym gt_trans gt_le_trans opcode (-1, f_lowest))
    as [ [Er Hle] | (l1 & op & l2 & c & Hsplit & Ec & Er & Hlt & H1 & H2) ];
    rewrite Er.
  - left. split; [ reflexivity | ].
    intros op Hl.
    exact (Hle op _ (proj1 Hl) (@legal_float_slide_cand _ _ slide net0 _ _ Hl)).
  - right. exists op.
    assert (Hin : In op opcode) by (eapply opcode_split_in; eassumption).
    destruct (@float_slide_cand_legal _ _ slide net0 state _ _ Hin Ec) as [Hl ->].
    split; [ exact Hl | ]. split; [ reflexivity | ].
    split; [ exact Hlt | ].
    split.
    + intros op' Hl'.
      assert (Hc' := @legal_float_slide_cand _ _ slide net0 _ _ Hl').
      destruct Hl' as [Hin' _]. rewrite Hsplit in Hin'.
      apply in_app_or in Hin'. destruct Hin' as [ Hin' | [ <- | Hin' ] ].
      * exact (proj1 (H1 op' _ Hin' Hc')).
      * apply (@gt_irrefl _ f_gt gt_asym).
      * exact (H2 op' _ Hin' Hc').
    + intros op' Hl' Hlt'.
      assert (Hc' := @legal_float_slide_cand _ _ slide net0 _ _ Hl').
      exact (proj2 (H1 op' _ (opcode_split _ _ Hsplit (proj1 Hl') Hlt') Hc')).
Qed.

Lemma float_best_estimate_unique (state : board) (bv bv' : F) :
  float_best_estimate nan slide net0 state bv ->
  float_best_estimate nan slide net0 state bv' ->
  bv = bv'.
Proof.
  intros [ [-> Hle] | (op & Hl & -> & Hlt & Hmax & Hfirst) ]
         [ [-> Hle'] | (op' & Hl' & -> & Hlt' & Hmax' & Hfirst') ].
  - reflexivity.
  - rewrite (Hle op' Hl') in Hlt'. discriminate.
  - rewrite (Hle' op Hl) in Hlt. discriminate.
  - destruct (Z.lt_trichotomy op op') as [ H | [ -> | H ] ].
    + exfalso. destruct (Hfirst' op Hl H) as [ Hn | Hg ].
      * rewrite (@gt_not_nan _ _ Hlt) in Hn. discriminate.
      * rewrite (Hmax op' Hl') in Hg. discriminate.
    + reflexivity.
    + exfalso. destruct (Hfirst op' Hl' H) as [ Hn | Hg ].
      * rewrite (@gt_not_nan _ _ Hlt') in Hn. discriminate.
      * rewrite (Hmax' op Hl) in Hg. discriminate.
Qed.

(** What the loop of [take_action] leaves in its locals. *)
Lemma take_action_search_float (before : board) :
  (take_action_search slide net0 before = search_init
   /\ forall op, legal slide before op ->
                 f_gt (float_move_score slide net0 before op) initial_score
                 = false)
  \/ exists op,
       legal slide before op
       /\ take_action_search slide net0 before = search_of slide net0 before op
       /\ f_gt (float_move_score slide net0 before op) initial_score = true
       /\ (forall op', legal slide before op' ->
                       f_gt (float_move_score slide net0 before op')
                            (float_move_score slide net0 before op) = false)
       /\ (forall op', legal slide before op' -> op' < op ->
                       nan (float_move_score slide net0 before op') = true
                       \/ f_gt (float_move_score slide net0 before op)
                               (float_move_score slide net0 before op') = true).
Proof.
  rewrite take_action_search_is_fscan.
  destruct (@fscan_spec _ _ search_key f_gt nan
              (float_search_cand slide net0 before)
              gt_asym gt_trans gt_le_trans opcode search_init)
    as [ [Er Hle] | (l1 & op & l2 & c & Hsplit & Ec & Er & Hlt & H1 & H2) ];
    rewrite Er.
  - left. split; [ reflexivity | ].
    intros op Hl.
    exact (Hle op _ (proj1 Hl) (@legal_float_search_cand _ _ slide net0 _ _ Hl)).
  - right. exists op.
    assert (Hin : In op opcode) by (eapply opcode_split_in; eassumption).
    destruct (@float_search_cand_legal _ _ slide net0 before _ _ Hin Ec) as [Hl ->].
    split; [ exact Hl | ]. split; [ reflexivity | ].
    split; [ exact Hlt | ].
    split.
    + intros op' Hl'.
      assert (Hc' := @legal_float_search_cand _ _ slide net0 _ _ Hl').
      destruct Hl' as [Hin' _]. rewrite Hsplit in Hin'.
      apply in_app_or in Hin'. destruct Hin' as [ Hin' | [ <- | Hin' ] ].
      * exact (proj1 (H1 op' _ Hin' Hc')).
      * apply (@gt_irrefl _ f_gt gt_asym).
      * exact (H2 op' _ Hin' Hc').
    + intros op' Hl' Hlt'.
      assert (Hc' := @legal_float_search_cand _ _ slide net0 _ _ Hl').
      exact (proj2 (H1 op' _ (opcode_split _ _ Hsplit (proj1 Hl') Hlt') Hc')).
Qed.

End Float_loops_ordered.

(** ** The expected value and the chosen direction *)

Lemma b32_gt_not_nan_l (a b : spec_float) :
  f_gt (FloatOps := binary32) a b = true -> b32_is_nan a = false.
Proof. intros H. exact (proj1 (b32_gt_not_nan _ _ H)). Qed.

(** C1 (as the code has it).  In single precision, [expect_value(after)]
    is the float accumulation over the empty cells, in cell order, of
    (0.9f * best1) / numEmptyCells and then (0.1f * best2) / numEmptyCells,
    where, for the tile exponent t placed in the cell, best_t is the
    network's estimate of the board reached by the first legal direction
    than whose score reward + estimate no legal direction's score is
    greater, the reward itself not being added; best_t is the lowest float
    when no legal direction's score is greater than the initial
    -1 + -FLT_MAX, in particular when no direction is legal. *)
Theorem expect_value_accumulates_best_estimates :
  forall (slide : board -> Z -> Z * board) (net0 : network spec_float)
         (after0 : board),
  exists best : Z -> nat -> spec_float,
    (forall t i,
        b32_best_estimate slide net0 (set_tile after0 i t) (best t i)
        /\ forall bv, b32_best_estimate slide net0 (set_tile after0 i t) bv ->
                      bv = best t i)
    /\ expect_value slide net0 after0 = accumulate_best best after0.
Proof.
  intros slide net0 after0.
  exists (fun t i => snd (best_slide slide net0 (set_tile after0 i t))).
  split.
  - intros t i.
    pose proof (@best_slide_float_best_estimate _ binary32 b32_is_nan
                  b32_gt_asym b32_gt_trans b32_gt_le_trans
                  slide net0 (set_tile after0 i t)) as Hb.
    split; [ exact Hb | ].
    intros bv Hbv.
    exact (@float_best_estimate_unique _ binary32 b32_is_nan b32_gt_not_nan_l
             slide net0 (set_tile after0 i t) bv _ Hbv Hb).
  - reflexivity.
Qed.

(** C3 (as the code has it).  In single precision: on a board with a
    legal direction whose score reward + expect_value(afterstate) is greater
    than the initial -1 + -FLT_MAX, [take_action] returns the slide action
    of the first legal direction than whose score no legal direction's score
    is greater (every earlier legal direction scores strictly less, or its
    score is NaN), and it appends exactly one step to the history, holding
    that direction's reward and afterstate. *)
Theorem take_action_best_float_score :
  forall (slide : board -> Z -> Z * board) (st : TD_player spec_float)
         (before : board),
    (exists op, legal slide before op
                /\ f_gt (float_move_score slide (net st) before op)
                        initial_score = true) ->
    exists op,
      legal slide before op
      /\ take_action slide st before
         = (action_slide op, push_back st (step_of slide before op))
      /\ history (snd (take_action slide st before))
         = history st ++ [ step_of slide before op ]
      /\ (forall op', legal slide before op' ->
                      f_gt (float_move_score slide (net st) before op')
                           (float_move_score slide (net st) before op) = false)
      /\ (forall op', legal slide before op' -> op' < op ->
                      b32_is_nan (float_move_score slide (net st) before op')
                      = true
                      \/ f_gt (float_move_score slide (net st) before op)
                              (float_move_score slide (net st) before op')
                         = true).
Proof.
  intros slide st before (op0 & Hl0 & Hs0).
  destruct (@take_action_search_float _ binary32 b32_is_nan
              b32_gt_asym b32_gt_trans b32_gt_le_trans slide (net st) before)
    as [ [_ Hle] | (op & Hl & Es & _ & Hmax & Hfirst) ].
  - rewrite (Hle op0 Hl0) in Hs0. discriminate.
  - exists op. split; [ exact Hl | ].
    assert (E : take_action slide st before
                = (action_slide op, push_back st (step_of slide before op))).
    { unfold take_action. rewrite Es.
      unfold search_of, step_of. cbn [best_op best_reward best_after].
      destruct (Z.eqb_spec op (-1)) as [Heq | Hne]; [ | reflexivity ].
      now elim (legal_not_sentinel Hl). }
    split; [ exact E | ]. split; [ now rewrite E | ].
    split; assumption.
Qed.

(** The statement of C3 on the corner board with all weights zero. *)
Lemma take_action_best_float_score_witness :
  exists op,
    legal slide_2048 corner_board op
    /\ take_action (FO := binary32) slide_2048 (player0 f_0_1 1 []) corner_board
       = (action_slide op,
          push_back (player0 f_0_1 1 []) (step_of slide_2048 corner_board op))
    /\ history (snd (take_action (FO := binary32) slide_2048
                                 (player0 f_0_1 1 []) corner_board))
       = [ step_of slide_2048 corner_board op ].
Proof.
  destruct (@take_action_best_float_score slide_2048
              (player0 (FO := binary32) f_0_1 1 []) corner_board)
    as (op & Hl & E & Eh & _).
  - exists 1. split; [ split; [ cbn; tauto | vm_compute; discriminate ] | ].
    vm_compute. reflexivity.
  - exists op. split; [ exact Hl | ]. split; [ exact E | exact Eh ].
Defined.

(** C3 fails as stated: with the lowest float in every entry of table 0,
    every estimate is -FLT_MAX, and no score reward + expect_value compares
    greater than the initial -1 + -FLT_MAX, which rounds to -FLT_MAX.  On
    the corner board the directions 1 and 2 are legal, yet [take_action]
    selects none: it returns the slide action built from -1 and appends
    nothing. *)
Lemma take_action_lowest_weights :
  legal slide_2048 corner_board 1
  /\ legal slide_2048 corner_board 2
  /\ f_gt (float_move_score slide_2048 (net lowest_player) corner_board 1)
          initial_score = false
  /\ f_gt (float_move_score slide_2048 (net lowest_player) corner_board 2)
          initial_score = false
  /\ fst (take_action slide_2048 lowest_player corner_board) = action_slide (-1)
  /\ history (snd (take_action slide_2048 lowest_player corner_board)) = [].
Proof.
  split; [ split; [ cbn; tauto | vm_compute; discriminate ] | ].
  split; [ split; [ cbn; tauto | vm_compute; discriminate ] | ].
  repeat split; vm_compute; reflexivity.
Qed.

(** ** Adjustments and episodes *)

Section Adjust_float.

Context {F : Type} {FO : FloatOps F}.


(** X15.  Under any float arithmetic, after adjusting board [b] the
    estimate of any board [b'] is the float sum, in table order, of its 32
    entries, where exactly the entries of the tables in which [b'] has the
    feature index of [b] carry the increment. *)
Theorem adjust_value_estimate_elsewhere :
  forall (net0 : network F) (a : F) (b b' : board) (target : Z),
    estimate_value (adjust_value net0 a b target) b'
    = fold_left
        (fun value ki =>
           f_add value
                 (if snd ki =? nth (fst ki) (features b) 0
                  then f_add (net0 (fst ki) (snd ki))
                             (f_mul a (f_sub (f_of_int target)
                                             (estimate_value net0 b)))
                  else net0 (fst ki) (snd ki)))
        (indexed_features b') f_zero.
Proof.
  intros net0 a b b' target. unfold estimate_value at 1.
  apply fold_left_ext. intros v [k idx] Hin. cbn [fst snd].
  unfold adjust_value.
  rewrite add_at_each_spec by (rewrite indexed_features_tables; apply seq_NoDup).
  rewrite selects_indexed_features.
  apply selects_in in Hin. rewrite selects_indexed_features in Hin.
  apply andb_true_iff in Hin. destruct Hin as [Hk _].
  rewrite Hk. reflexivity.
Qed.

(** X27.  Under any float arithmetic, one call of the earlier
    [adjust_value] adds the scalar alpha * (target - estimate), computed
    once from the weights before the call, to exactly the entry
    [net[k][features k]] of each table k < 24; every other entry keeps its
    value. *)
Theorem agent_h_adjust_value_one_entry_per_table :
  forall (net0 : network F) (a : F) (b : board) (target : Z)
         (k : nat) (idx : Z),
    Agent_h.adjust_value net0 a b target k idx
    = if ((k <? 24)%nat && (idx =? nth k (Agent_h.features b) 0))%bool
      then f_add (net0 k idx)
                 (f_mul a (f_sub (f_of_int target)
                                 (Agent_h.estimate_value net0 b)))
      else net0 k idx.
Proof.
  intros net0 a b target k idx. unfold Agent_h.adjust_value.
  rewrite add_at_each_spec
    by (change (map fst (Agent_h.indexed_features b)) with (seq 0 24);
        apply seq_NoDup).
  unfold Agent_h.indexed_features.
  change 24%nat with (List.length (Agent_h.features b)) at 1.
  rewrite selects_combine_seq. rewrite Nat.sub_0_r. reflexivity.
Qed.

End Adjust_float.


Section Close_episode_int.

Context {F : Type} {FO : FloatOps F}.

(** X19.  With a non-empty history, a nonzero learning rate, a horizon
    n >= 1 and [int] computations that do not overflow, [close_episode]
    adjusts the last afterstate toward 0 and then each earlier step, latest
    first, toward its n-step return computed with the weights of that moment
    and converted to [int]. *)
Theorem close_episode_int_targets :
  forall st : TD_player F,
    history st <> [] -> f_eq (alpha st) (f_of_int 0) = false ->
    1 <= n_step st -> int_episode st ->
    net (close_episode st)
    = fold_left
        (fun net0 i =>
           adjust_value net0 (alpha st) (after (nth i (history st) no_step))
                        (truncated_target net0 (history st) i (n_step st)))
        (rev (seq 0 (List.length (history st) - 1)))
        (adjust_value (net st) (alpha st)
                      (after (last (history st) no_step)) 0).
Proof.
  intros st Hne Ha Hn _. now apply close_episode_targets.
Qed.

(** X20.  When the horizon is at least the number of recorded steps and
    the [int] computations do not overflow, no target uses the network: the
    last afterstate is adjusted toward 0 and every earlier one toward the
    sum of the rewards recorded after it. *)
Theorem close_episode_int_long_horizon :
  forall st : TD_player F,
    history st <> [] ->
    f_eq (alpha st) (f_of_int 0) = false ->
    Z.of_nat (List.length (history st)) <= n_step st ->
    int_episode st ->
    net (close_episode st)
    = fold_left
        (fun net0 i =>
           adjust_value net0 (alpha st) (after (nth i (history st) no_step))
                        (rewards_after (history st) i))
        (rev (seq 0 (List.length (history st) - 1)))
        (adjust_value (net st) (alpha st)
                      (after (last (history st) no_step)) 0).
Proof.
  intros st Hne Ha Hn _. now apply close_episode_long_horizon.
Qed.

End Close_episode_int.

Lemma episode2_int (F : Type) (a : F) (net0 : network F) (n : Z) :
  n < 1000 ->
  int_episode {| net := net0; alpha := a; n_step := n; history := episode2 |}.
Proof.
  intros Hn. unfold int_episode. cbn [history n_step].
  split; [ repeat constructor; cbn; lia | ].
  split; [ vm_compute; reflexivity | ].
  unfold episode2. cbn [List.length]. lia.
Qed.

(** The statement of X19 for [player2] in single precision. *)
Lemma close_episode_int_targets_witness :
  int_episode (player2 (FO := binary32))
  /\ net (close_episode (player2 (FO := binary32)))
     = fold_left
         (fun net0 i =>
            adjust_value net0 (alpha player2)
              (after (nth i (history (player2 (FO := binary32))) no_step))
              (truncated_target net0 (history (player2 (FO := binary32))) i
                                (n_step (player2 (FO := binary32)))))
         (rev (seq 0 (List.length (history (player2 (FO := binary32))) - 1)))
         (adjust_value (net player2) (alpha player2)
            (after (last (history (player2 (FO := binary32))) no_step)) 0).
Proof.
  assert (H : int_episode (player2 (FO := binary32)))
    by (apply episode2_int; lia).
  split; [ exact H | ].
  apply (@close_episode_int_targets _ binary32 (player2 (FO := binary32))).
  - discriminate.
  - reflexivity.
  - cbn. lia.
  - exact H.
Defined.

(** The statement of X20 for [player2_long] in single precision, whose
    horizon is the length of its episode. *)
Lemma close_episode_int_long_horizon_witness :
  int_episode (player2_long (FO := binary32))
  /\ net (close_episode (player2_long (FO := binary32)))
     = fold_left
         (fun net0 i =>
            adjust_value net0 (alpha player2_long)
              (after (nth i (history (player2_long (FO := binary32))) no_step))
              (rewards_after (history (player2_long (FO := binary32))) i))
         (rev (seq 0 (List.length (history (player2_long (FO := binary32))) - 1)))
         (adjust_value (net player2_long) (alpha player2_long)
            (after (last (history (player2_long (FO := binary32))) no_step)) 0).
Proof.
  assert (H : int_episode (player2_long (FO := binary32)))
    by (apply episode2_int; lia).
  split; [ exact H | ].
  apply (@close_episode_int_long_horizon _ binary32
           (player2_long (FO := binary32))).
  - discriminate.
  - reflexivity.
  - cbn. lia.
  - exact H.
Defined.

(** ** The earlier revision in float arithmetic, and the stuck board *)

Section Agent_h_float.

Context {F : Type} {FO : FloatOps F}.
Variable slide : board -> Z -> Z * board.
Variable net0 : network F.

Lemma agent_h_take_action_is_fscan (before : board) :
  fold_left (Agent_h.take_action_step slide net0 before) opcode
            Agent_h.search_init
  = fold_left (fscan_step agent_h_float_key f_gt
                          (agent_h_float_cand slide net0 before))
              opcode Agent_h.search_init.
Proof.
  apply fold_left_ext.
  intros best op _.
  unfold Agent_h.take_action_step, fscan_step, agent_h_float_cand.
  destruct (fst (slide before op) <? 0); reflexivity.
Qed.

Lemma agent_h_float_cand_legal (before : board) (op : Z) (c : search F) :
  In op opcode -> agent_h_float_cand slide net0 before op = Some c ->
  legal slide before op /\ c = agent_h_float_search_of slide net0 before op.
Proof.
  unfold agent_h_float_cand, legal. intros Hin H.
  destruct (Z.ltb_spec (fst (slide before op)) 0); [ discriminate | ].
  injection H as <-. auto.
Qed.

Lemma legal_agent_h_float_cand (before : board) (op : Z) :
  legal slide before op ->
  agent_h_float_cand slide net0 before op
  = Some (agent_h_float_search_of slide net0 before op).
Proof.
  unfold agent_h_float_cand, legal. intros [_ H].
  destruct (Z.ltb_spec (fst (slide before op)) 0); [ lia | reflexivity ].
Qed.

Lemma agent_h_search_none (before : board) :
  (forall op, legal slide before op ->
              f_gt (agent_h_float_score slide net0 before op)
                   agent_h_initial_score = false) ->
  fold_left (Agent_h.take_action_step slide net0 before) opcode
            Agent_h.search_init
  = Agent_h.search_init.
Proof.
  intros H. rewrite agent_h_take_action_is_fscan. apply fscan_none.
  intros op c Hin Ec.
  destruct (agent_h_float_cand_legal before Hin Ec) as [Hl ->].
  exact (H op Hl).
Qed.

Variable nan : F -> bool.
Hypothesis gt_asym : forall a b : F, f_gt a b = true -> f_gt b a = false.
Hypothesis gt_trans :
  forall a b c : F, f_gt a b = true -> f_gt b c = true -> f_gt a c = true.
Hypothesis gt_le_trans :
  forall a b c : F, f_gt a b = true -> f_gt c b = false -> nan c = false ->
                    f_gt a c = true.

(** What the loop of the earlier [take_action] leaves in its locals. *)
Lemma agent_h_search_float (before : board) :
  (fold_left (Agent_h.take_action_step slide net0 before) opcode
             Agent_h.search_init = Agent_h.search_init
   /\ forall op, legal slide before op ->
                 f_gt (agent_h_float_score slide net0 before op)
                      agent_h_initial_score = false)
  \/ exists op,
       legal slide before op
       /\ fold_left (Agent_h.take_action_step slide net0 before) opcode
                    Agent_h.search_init
          = agent_h_float_search_of slide net0 before op
       /\ f_gt (agent_h_float_score slide net0 before op)
               agent_h_initial_score = true
       /\ (forall op', legal slide before op' ->
                       f_gt (agent_h_float_score slide net0 before op')
                            (agent_h_float_score slide net0 before op) = false)
       /\ (forall op', legal slide before op' -> op' < op ->
                       nan (agent_h_float_score slide net0 before op') = true
                       \/ f_gt (agent_h_float_score slide net0 before op)
                               (agent_h_float_score slide net0 before op')
                          = true).
Proof.
  rewrite agent_h_take_action_is_fscan.
  destruct (@fscan_spec _ _ agent_h_float_key f_gt nan
              (agent_h_float_cand slide net0 before)
              gt_asym gt_trans gt_le_trans opcode Agent_h.search_init)
    as [ [Er Hle] | (l1 & op & l2 & c & Hsplit & Ec & Er & Hlt & H1 & H2) ];
    rewrite Er.
  - left. split; [ reflexivity | ].
    intros op Hl.
    exact (Hle op _ (proj1 Hl) (legal_agent_h_float_cand Hl)).
  - right. exists op.
    assert (Hin : In op opcode) by (eapply opcode_split_in; eassumption).
    destruct (agent_h_float_cand_legal before Hin Ec) as [Hl ->].
    split; [ exact Hl | ]. split; [ reflexivity | ].
    split; [ exact Hlt | ].
    split.
    + intros op' Hl'.
      assert (Hc' := legal_agent_h_float_cand Hl').
      destruct Hl' as [Hin' _]. rewrite Hsplit in Hin'.
      apply in_app_or in Hin'. destruct Hin' as [ Hin' | [ <- | Hin' ] ].
      * exact (proj1 (H1 op' _ Hin' Hc')).
      * apply (@gt_irrefl _ f_gt gt_asym).
      * exact (H2 op' _ Hin' Hc').
    + intros op' Hl' Hlt'.
      assert (Hc' := legal_agent_h_float_cand Hl').
      exact (proj2 (H1 op' _ (opcode_split _ _ Hsplit (proj1 Hl') Hlt') Hc')).
Qed.

End Agent_h_float.

(** X25.  Under any float arithmetic the earlier [take_action] selects a
    direction only when its score reward + estimate compares greater than
    -1 + -1000000.0, the score of the initial locals: when no legal
    direction's score does, it returns the slide action of -1 and records
    nothing, also when legal directions exist. *)
Theorem agent_h_take_action_low_float_scores :
  forall (F : Type) (FO : FloatOps F) (slide : board -> Z -> Z * board)
         (st : TD_player F) (before : board),
    (forall op, legal slide before op ->
                f_gt (agent_h_float_score slide (net st) before op)
                     agent_h_initial_score = false) ->
    Agent_h.take_action slide st before = (action_slide (-1), st).
Proof.
  intros F FO slide st before H. unfold Agent_h.take_action.
  rewrite (@agent_h_search_none _ _ slide (net st) before H). reflexivity.
Qed.

(** X26.  In single precision, when some legal direction's score
    reward + estimate_value(afterstate) compares greater than
    -1 + -1000000.0, the earlier [take_action] returns the slide action of
    the first legal direction than whose score no legal direction's score is
    greater, and appends that direction's reward and afterstate to the
    history. *)
Theorem agent_h_take_action_best_float_score :
  forall (slide : board -> Z -> Z * board) (st : TD_player spec_float)
         (before : board),
    (exists op, legal slide before op
                /\ f_gt (agent_h_float_score slide (net st) before op)
                        agent_h_initial_score = true) ->
    exists op,
      legal slide before op
      /\ Agent_h.take_action slide st before
         = (action_slide op, push_back st (step_of slide before op))
      /\ (forall op', legal slide before op' ->
                      f_gt (agent_h_float_score slide (net st) before op')
                           (agent_h_float_score slide (net st) before op)
                      = false)
      /\ (forall op', legal slide before op' -> op' < op ->
                      b32_is_nan (agent_h_float_score slide (net st) before op')
                      = true
                      \/ f_gt (agent_h_float_score slide (net st) before op)
                              (agent_h_float_score slide (net st) before op')
                         = true).
Proof.
  intros slide st before (op0 & Hl0 & Hs0). unfold Agent_h.take_action.
  destruct (@agent_h_search_float _ binary32 slide (net st) b32_is_nan
              b32_gt_asym b32_gt_trans b32_gt_le_trans before)
    as [ [_ Hle] | (op & Hl & -> & _ & Hmax & Hfirst) ].
  - rewrite (Hle op0 Hl0) in Hs0. discriminate.
  - exists op. split; [ exact Hl | ]. split; [ | split; assumption ].
    unfold agent_h_float_search_of, step_of, push_back.
    cbn [best_op best_reward best_after].
    destruct (Z.eqb_spec op (-1)) as [Heq | Hne]; [ | reflexivity ].
    now elim (legal_not_sentinel Hl).
Qed.

Lemma low_weights_scores :
  forall op, legal slide_2048 corner_board op ->
             f_gt (agent_h_float_score (FO := binary32) slide_2048 low_weights
                                       corner_board op)
                  agent_h_initial_score = false.
Proof.
  intros op [Hin Hpos]. unfold opcode in Hin. cbn [In] in Hin.
  destruct Hin as [ <- | [ <- | [ <- | [ <- | [] ] ] ] ];
    first [ vm_compute; reflexivity | vm_compute in Hpos; now elim Hpos ].
Qed.

(** The statement of X25 in single precision on the corner board, where
    two directions are legal, with -2000000 in every entry of table 0. *)
Lemma agent_h_take_action_low_float_scores_witness :
  legal slide_2048 corner_board 1
  /\ Agent_h.take_action (FO := binary32) slide_2048
       {| net := low_weights; alpha := f_0_1; n_step := 1; history := [] |}
       corner_board
     = (action_slide (-1),
        {| net := low_weights; alpha := f_0_1; n_step := 1; history := [] |}).
Proof.
  split; [ split; [ cbn; tauto | vm_compute; discriminate ] | ].
  apply (@agent_h_take_action_low_float_scores _ binary32 slide_2048
           {| net := low_weights; alpha := f_0_1; n_step := 1; history := [] |}
           corner_board).
  exact low_weights_scores.
Defined.

(** The statement of X26 on the corner board with all weights zero. *)
Lemma agent_h_take_action_best_float_score_witness :
  exists op,
    legal slide_2048 corner_board op
    /\ Agent_h.take_action (FO := binary32) slide_2048 (player0 f_0_1 1 [])
                           corner_board
       = (action_slide op,
          push_back (player0 f_0_1 1 []) (step_of slide_2048 corner_board op)).
Proof.
  destruct (@agent_h_take_action_best_float_score slide_2048
              (player0 (FO := binary32) f_0_1 1 []) corner_board)
    as (op & Hl & E & _).
  - exists 1. split; [ split; [ cbn; tauto | vm_compute; discriminate ] | ].
    vm_compute. reflexivity.
  - exists op. split; [ exact Hl | exact E ].
Defined.

(** C7: the code at the failing input.  On the stuck board every slide
    returns -1; [TD_player::take_action] evaluates [action::slide(best_op)]
    with [best_op] still -1 and leaves the history as it was, while on the
    same board the random style of [player::take_action] and
    [rndenv::take_action] return the default [action()]. *)
Theorem take_action_stuck_board :
  (forall op, In op opcode -> fst (slide_2048 stuck_board op) = -1)
  /\ take_action (FO := binary32) slide_2048 (player0 f_0_1 1 episode2)
                 stuck_board
     = (action_slide (-1), player0 f_0_1 1 episode2)
  /\ fst (player_take_action slide_2048 opcode (player_new "") stuck_board)
     = action_null
  /\ fst (rndenv_take_action (seq 0 16) 0 rndenv_init stuck_board)
     = action_null.
Proof.
  split; [ exact stuck_board_illegal | ].
  split; [ | split; vm_compute; reflexivity ].
  apply take_action_no_legal_direction. exact stuck_board_illegal.
Qed.
